(** * Classified-band rendering and legacy UDM decoding (udm2 notebook)

  A shallow embedding of the two pieces of logic of
  [jupyter-notebooks/udm2/udm2.ipynb]:

  - [_ClassNormalize] (with its callers [imshow_class_band] and
    [visualize_udm2]), the colormap normalizer of a classified band;
  - [get_udm_labels.get_label], the decoder of the bit-encoded
    Unusable Data Mask byte.

  Numbers held by numpy arrays are idealised as exact rationals ([Q]),
  and an array of numbers is used together with the kind of its [dtype]
  where the code stores into it; Python integers are [Z]; Python strings
  are [string]; Python exceptions are the left summand of ExtLib's error
  monad. *)

From Stdlib Require Import ZArith QArith Qround Qabs List String Ascii Bool Lia.
From Stdlib Require Import Sorting.Sorted Permutation Lqa.
From ExtLib Require Import Structures.Monad Structures.MonadExc.
From ExtLib Require Import Data.Monads.EitherMonad.
Import ListNotations.
Import MonadNotation.

(* ===================================================================== *)
(** ** Python built-ins used by the notebook *)
(* ===================================================================== *)

Module Py.

Local Open Scope string_scope.

(** [int(s, 2)]: the integer written by the binary digits [s]. *)
Fixpoint int2_acc (acc : Z) (s : string) : Z :=
  match s with
  | EmptyString => acc
  | String c s' =>
      int2_acc (2 * acc + (if Ascii.eqb c "1"%char then 1 else 0))%Z s'
  end.

Definition int2 (s : string) : Z := int2_acc 0%Z s.

(** Truth value of an integer in a condition. *)
Definition truthy (n : Z) : bool := negb (n =? 0)%Z.

(** [sep.join(l)]. *)
Definition join (sep : string) (l : list string) : string :=
  String.concat sep l.

(** Binary digits of a positive number, most significant first. *)
Fixpoint bin_pos (p : positive) : string :=
  match p with
  | xH => "1"
  | xO p' => bin_pos p' ++ "0"
  | xI p' => bin_pos p' ++ "1"
  end.

Fixpoint zeros (n : nat) : string :=
  match n with
  | O => ""
  | S n' => String "0"%char (zeros n')
  end.

Definition zfill (width : nat) (s : string) : string :=
  zeros (width - String.length s) ++ s.

(** ['{0:08b}'.format(v)]: binary, zero-padded to width 8 (the sign of
    a negative number takes one of the eight columns). *)
Definition format_08b (v : Z) : string :=
  match v with
  | Z0 => zfill 8 "0"
  | Zpos p => zfill 8 (bin_pos p)
  | Zneg p => "-" ++ zfill 7 (bin_pos p)
  end.

(** ['missing/suspect {} data'.format(s)]. *)
Definition format_missing (s : string) : string :=
  "missing/suspect " ++ s ++ " data".

End Py.

(* ===================================================================== *)
(** ** The legacy mask decoder: [get_udm_labels.get_label] *)
(* ===================================================================== *)

Module Udm.

Import Py.
Local Open Scope string_scope.
Local Open Scope list_scope.
Local Open Scope Z_scope.

(** The [bands] list built inside the second [if]. *)
Definition bands (v : Z) : list string :=
  let bands := [] in
  let bands := if truthy (Z.land v (int2 "100"))
               then bands ++ ["Blue"] else bands in
  let bands := if truthy (Z.land v (int2 "1000"))
               then bands ++ ["Green"] else bands in
  let bands := if truthy (Z.land v (int2 "10000"))
               then bands ++ ["Red"] else bands in
  let bands := if truthy (Z.land v (int2 "100000"))
               then bands ++ ["Red-Edge"] else bands in
  let bands := if truthy (Z.land v (int2 "1000000"))
               then bands ++ ["NIR"] else bands in
  let bands := if truthy (Z.land v (int2 "10000000"))
               then bands ++ ["Coastal Blue/Green I/Yellow"] else bands in
  bands.

(** The [labels] list of the [else] branch as it stands just before the
    [if not len(labels)] test. *)
Definition flag_labels (v : Z) : list string :=
  let labels := [] in
  let labels := if truthy (Z.land v (int2 "10"))
                then labels ++ ["cloud"] else labels in
  let labels := if truthy (Z.land v (int2 "11111100"))
                then labels ++ [format_missing (join ", " (bands v))]
                else labels in
  labels.

Definition get_label (v : Z) : string :=
  if v =? 0 then "clear"
  else if v =? 1 then "blackfill"
  else
    let labels := flag_labels v in
    let labels := if (List.length labels =? 0)%nat
                  then labels ++ [format_08b v] else labels in
    join " + " labels.

(** *** The decoder as the format description words it

    The six channels of bits 2 to 7, in ascending bit order; the label
    they compose; the whole label of a byte other than 0 and 1. The
    theorems below compare [get_label] with these. *)
Definition channels : list (Z * string) :=
  [(2, "Blue"); (3, "Green"); (4, "Red"); (5, "Red-Edge"); (6, "NIR");
   (7, "Coastal Blue/Green I/Yellow")].

Definition channel_names (v : Z) : list string :=
  map snd (filter (fun c => Z.testbit v (fst c)) channels).

Definition any_channel_bit (v : Z) : bool :=
  existsb (fun c => Z.testbit v (fst c)) channels.

Definition cloud_part (v : Z) : list string :=
  if Z.testbit v 1 then ["cloud"] else [].

Definition channel_part (v : Z) : list string :=
  if any_channel_bit v
  then ["missing/suspect " ++ join ", " (channel_names v) ++ " data"]%string
  else [].

Definition composed_label (v : Z) : string :=
  join " + " (cloud_part v ++ channel_part v).

(** The integers [lo], [lo + 1], ..., [lo + n - 1]. *)
Definition range_from (lo : Z) (n : nat) : list Z :=
  map (fun i => lo + Z.of_nat i) (seq 0 n).

End Udm.

(* ===================================================================== *)
(** ** numpy arrays, possibly masked *)
(* ===================================================================== *)

Module Np.

Local Open Scope Q_scope.

(** An element read out of a (masked) array: a number, or the constant
    [np.ma.masked], the only instance of [MaskedConstant]. *)
Inductive elem : Type :=
| Val (x : Q)
| masked.

Definition isinstance_MaskedConstant (v : elem) : bool :=
  match v with
  | masked => true
  | Val _ => false
  end.

(** A 2-D array, row by row. *)
Definition ndarray : Type := list (list elem).

Definition flatten (a : ndarray) : list elem := List.concat a.

(** The numbers at the unmasked places of a flat array. *)
Fixpoint compressed (l : list elem) : list Q :=
  match l with
  | [] => []
  | Val x :: l' => x :: compressed l'
  | masked :: l' => compressed l'
  end.

Definition has_masked (l : list elem) : bool :=
  existsb isinstance_MaskedConstant l.

(** [ar.sort()] on numbers. *)
Fixpoint insert_sorted (x : Q) (l : list Q) : list Q :=
  match l with
  | [] => [x]
  | y :: l' => if Qle_bool x y then x :: l else y :: insert_sorted x l'
  end.

Fixpoint sort (l : list Q) : list Q :=
  match l with
  | [] => []
  | x :: l' => insert_sorted x (sort l')
  end.

(** [mask[1:] = aux[1:] != aux[:-1]]: keep an element of the sorted array
    when it differs from its predecessor. *)
Fixpoint keep_changes (prev : Q) (l : list Q) : list Q :=
  match l with
  | [] => []
  | y :: l' =>
      if Qeq_bool y prev then keep_changes y l' else y :: keep_changes y l'
  end.

(** [mask[:1] = True]: the first element is always kept. *)
Definition unique1d (aux : list Q) : list Q :=
  match aux with
  | [] => []
  | x :: l' => x :: keep_changes x l'
  end.

(** [np.unique(arry)]: the sorted distinct numbers of the flattened array;
    on a masked array the masked places sort last and collapse into one
    masked element. *)
Definition unique (arry : ndarray) : list elem :=
  let ar := flatten arry in
  (map Val (unique1d (sort (compressed ar)))
     ++ (if has_masked ar then [masked] else []))%list.

(** Rounding to the nearest integer, ties to the even neighbour, as
    [np.around] does. *)
Definition round_half_even (x : Q) : Z :=
  let f := Qfloor x in
  match Qcompare (x - inject_Z f) (1 # 2) with
  | Lt => f
  | Gt => (f + 1)%Z
  | Eq => if Z.even f then f else (f + 1)%Z
  end.

Definition around_elem (v : elem) : elem :=
  match v with
  | Val x => Val (inject_Z (round_half_even x))
  | masked => masked
  end.

(** [np.around(arry)]; the mask is kept. *)
Definition around (arry : ndarray) : ndarray := map (map around_elem) arry.

(** One cell of [arry == k]: a comparison that involves a masked value is
    itself masked and selects nothing. *)
Definition eq_elem (a k : elem) : bool :=
  match a, k with
  | Val x, Val y => Qeq_bool x y
  | _, _ => false
  end.

Fixpoint map2 {A B C : Type} (f : A -> B -> C)
         (l1 : list A) (l2 : list B) : list C :=
  match l1, l2 with
  | a :: l1', b :: l2' => f a b :: map2 f l1' l2'
  | _, _ => []
  end.

(** [new_arry[arry == k] = v], returning the updated [new_arry]. *)
Definition setitem_where_eq (new_arry arry : ndarray) (k : elem) (v : Q)
  : ndarray :=
  map2 (map2 (fun n a => if eq_elem a k then Val v else n)) new_arry arry.

(** The kind of the [dtype] of an array of numbers. *)
Inductive dtype : Type :=
| integer
| floating.

(** The integer a float is cast to: truncation toward zero. *)
Definition truncate (x : Q) : Z :=
  if Qle_bool 0 x then Qfloor x else Qceiling x.

(** What a cell of an array of kind [dt] holds once [v] is assigned to
    it: an integer array casts the float. *)
Definition stored (dt : dtype) (v : Q) : Q :=
  match dt with
  | floating => v
  | integer => inject_Z (truncate v)
  end.

(** A 3-D array of shape [(len(pieces), n_rows, n_cols)], given by its
    pieces along the first axis. *)
Record array3 : Type := mkArray3
  { pieces : list ndarray;
    n_rows : nat;
    n_cols : nat }.

(** Every piece has [n_rows] rows of [n_cols] elements. *)
Definition shaped (a : array3) : Prop :=
  Forall (fun b => List.length b = n_rows a /\
                   Forall (fun r => List.length r = n_cols a) b)
         (pieces a).

(** The number of axes [np.squeeze] leaves to a piece, of shape
    [(1, n_rows, n_cols)]: every axis of length 1 goes. *)
Definition squeezed_ndim (a : array3) : nat :=
  ((if n_rows a =? 1 then 0 else 1) + (if n_cols a =? 1 then 0 else 1))%nat.

(** [np.array(range(n), dtype=float) / d]; each quotient is kept in lowest
    terms so that equal numbers are equal terms. *)
Definition arange_div (n : nat) (d : Z) : list Q :=
  map (fun i => Qred (inject_Z (Z.of_nat i) / inject_Z d)) (seq 0 n).

End Np.

(* ===================================================================== *)
(** ** Python dictionaries keyed by array elements, in insertion order *)
(* ===================================================================== *)

Module Dict.

Import Np.

Definition dict (V : Type) : Type := list (elem * V).

(** Equality of keys: numeric equality; [np.ma.masked] is a singleton,
    taken here as a key like any other. *)
Definition key_eqb (a b : elem) : bool :=
  match a, b with
  | Val x, Val y => Qeq_bool x y
  | masked, masked => true
  | _, _ => false
  end.

Fixpoint get {V : Type} (d : dict V) (k : elem) : option V :=
  match d with
  | [] => None
  | (k', v) :: d' => if key_eqb k' k then Some v else get d' k
  end.

(** [d[k] = v]: an existing key keeps its place, a new one goes last. *)
Fixpoint set {V : Type} (d : dict V) (k : elem) (v : V) : dict V :=
  match d with
  | [] => [(k, v)]
  | (k', v') :: d' =>
      if key_eqb k' k then (k', v) :: d' else (k', v') :: set d' k v
  end.

(** [dict(pairs)] and [OrderedDict(pairs)]. *)
Definition of_pairs {V : Type} (pairs : list (elem * V)) : dict V :=
  fold_left (fun d kv => set d (fst kv) (snd kv)) pairs [].

Definition keys {V : Type} (d : dict V) : list elem := map fst d.
Definition values {V : Type} (d : dict V) : list V := map snd d.
Definition items {V : Type} (d : dict V) : list (elem * V) := d.

End Dict.

(* ===================================================================== *)
(** ** Exceptions *)
(* ===================================================================== *)

Module Exn.

Import Np.
Local Open Scope monad_scope.

(** The exceptions the modelled code meets: an attribute looked up on
    [None], a dictionary subscript with an absent key, image data that is
    not 2-D, and an integer remainder by zero. *)
Inductive exn : Type :=
| AttributeError
| KeyError (k : elem)
| TypeError
| ZeroDivisionError.

Abbreviation result := (sum exn).

(** [d[k]]. *)
Definition getitem {V : Type} (d : Dict.dict V) (k : elem) : result V :=
  match Dict.get d k with
  | Some v => ret v
  | None => raise (KeyError k)
  end.

(** [class_labels.keys()] and [class_labels.values()], where
    [class_labels] may be [None]. *)
Definition attr_keys {V : Type} (o : option (Dict.dict V))
  : result (list elem) :=
  match o with
  | Some d => ret (Dict.keys d)
  | None => raise AttributeError
  end.

Definition attr_values {V : Type} (o : option (Dict.dict V))
  : result (list V) :=
  match o with
  | Some d => ret (Dict.values d)
  | None => raise AttributeError
  end.

(** A list comprehension [[f(k) for k in l]] whose body may raise. *)
Fixpoint comprehension {A B : Type} (f : A -> result B) (l : list A)
  : result (list B) :=
  match l with
  | [] => ret []
  | a :: l' =>
      b <- f a ;;
      bs <- comprehension f l' ;;
      ret (b :: bs)
  end.

End Exn.

(* ===================================================================== *)
(** ** [class _ClassNormalize(colors.Normalize)] *)
(* ===================================================================== *)

Module ClassNormalize.

Import Np Exn.
Local Open Scope monad_scope.

(** [__init__(self, arry)]; the result is the attribute [self._mapping]
    (the base-class fields [vmin = 0], [vmax = 1], [clip = False] are
    constants). *)
Definition __init__ (arry : ndarray) : result (Dict.dict Q) :=
  let values :=
    filter (fun v => negb (isinstance_MaskedConstant v)) (unique arry) in
  let color_ticks :=
    if (1 <? List.length values)%nat
    then arange_div (List.length values) (Z.of_nat (List.length values) - 1)
    else [0%Q] in
  ret (Dict.of_pairs (combine values color_ticks)).

(** [__call__(self, arry, clip=None)], with [self._mapping] and the kind
    [dt] of [arry.dtype] passed explicitly. [np.around] and [copy] keep
    the dtype, so [new_arry] is of kind [dt] and the assignment
    [new_arry[arry==k] = v] stores [v] as an array of that kind does. *)
Definition __call__ (dt : dtype) (mapping : Dict.dict Q) (arry : ndarray)
  : result ndarray :=
  let arry := around arry in
  let new_arry := arry in
  let new_arry :=
    fold_left
      (fun new_arry kv =>
         setitem_where_eq new_arry arry (fst kv) (stored dt (snd kv)))
      (Dict.items mapping) new_arry in
  ret new_arry.

End ClassNormalize.

(* ===================================================================== *)
(** ** Plotting glue: [imshow_class_band] and [visualize_udm2] *)
(* ===================================================================== *)

Module Plot.

Import Np Exn.
Local Open Scope monad_scope.
Local Open Scope string_scope.

(** [im.cmap(x)]: the colour a named colormap gives to the point [x] of
    the unit interval, kept symbolic. *)
Inductive rgba : Type :=
| cmap_at (cmap : string) (x : Q).

(** [mpatches.Patch(color=c, label=l)]. *)
Record Patch (L : Type) : Type := mkPatch { color : rgba; label : L }.
Arguments mkPatch {L} _ _.
Arguments color {L} _.
Arguments label {L} _.

(** What the modelled code leaves on a matplotlib axes: the normalized
    image handed to the colormap, the legend handles, the title. *)
Record Axes (L : Type) : Type := mkAxes
  { image : option ndarray;
    legend : option (list (Patch L));
    title : option string;
    axis_on : bool }.
Arguments mkAxes {L} _ _ _ _.
Arguments image {L} _.
Arguments legend {L} _.
Arguments title {L} _.
Arguments axis_on {L} _.

Definition new_axes {L : Type} : Axes L :=
  mkAxes None None None true.

Definition set_image {L} (ax : Axes L) (im : ndarray) : Axes L :=
  mkAxes (Some im) (legend ax) (title ax) (axis_on ax).
Definition set_legend {L} (ax : Axes L) (h : list (Patch L)) : Axes L :=
  mkAxes (image ax) (Some h) (title ax) (axis_on ax).
Definition set_title {L} (ax : Axes L) (t : string) : Axes L :=
  mkAxes (image ax) (legend ax) (Some t) (axis_on ax).
Definition set_axis_off {L} (ax : Axes L) : Axes L :=
  mkAxes (image ax) (legend ax) (title ax) false.

(** [im.cmap(color_mapping[k])]. *)
Definition color_of (color_mapping : Dict.dict Q) (cmap : string) (k : elem)
  : result rgba :=
  x <- getitem color_mapping k ;;
  ret (cmap_at cmap x).

(** The body of the [try] block: the legend handles. *)
Definition legend_patches {L : Type} (class_norm : Dict.dict Q)
           (class_labels : option (Dict.dict L)) (cmap : string)
  : result (list (Patch L)) :=
  let color_mapping := class_norm in
  ks <- attr_keys class_labels ;;
  colors <- comprehension (color_of color_mapping cmap) ks ;;
  labels <- attr_values class_labels ;;
  ret (map (fun cl => mkPatch (fst cl) (snd cl)) (combine colors labels)).

(** [c] is the colour the colormap gives to the position of the key [k]
    of [mapping]. *)
Definition has_color (mapping : Dict.dict Q) (cmap : string)
           (k : elem) (c : rgba) : Prop :=
  exists x, Dict.get mapping k = Some x /\ c = cmap_at cmap x.

(** [imshow_class_band(ax, class_band, class_labels, cmap)] on a 2-D
    [class_band]; [ax] is altered in place, so the new axes is returned.
    The image kept is what the normalizer makes of the data, which
    matplotlib hands to it as floats. *)
Definition imshow_class_band {L : Type} (ax : Axes L) (class_band : ndarray)
           (class_labels : option (Dict.dict L)) (cmap : string)
  : result (Axes L) :=
  class_norm <- ClassNormalize.__init__ class_band ;;
  im <- ClassNormalize.__call__ floating class_norm class_band ;;
  let ax := set_image ax im in
  catch
    (patches <- legend_patches class_norm class_labels cmap ;;
     ret (set_legend ax patches))
    (fun e => match e with
              | AttributeError => ret ax
              | _ => raise e
              end).

Definition udm2_labels : list string :=
  ["clear"; "snow"; "shadow"; "light haze"; "heavy haze"; "cloud";
   "confidence"; "unusable pixels"].

(** The value of [class_labels] after the [if]/[else] of the loop of
    [visualize_udm2]. *)
Definition loop_class_labels (band : ndarray) : option (Dict.dict elem) :=
  let unique := Np.unique band in
  if (List.length unique <? 5)%nat
  then Some (Dict.of_pairs (map (fun v => (v, v)) (Np.unique band)))
  else None.

(** The body of the loop of [visualize_udm2] for one squeezed band of
    [ndim] axes. [_ClassNormalize(class_band)] raises nothing, and
    [ax.imshow], the next call of [imshow_class_band], refuses with
    [TypeError] data that is not 2-D. *)
Definition visualize_udm2_band (ax : Axes elem) (ndim : nat)
           (band : ndarray) (label : string) : result (Axes elem) :=
  let class_labels := loop_class_labels band in
  ax <- (if (ndim =? 2)%nat
         then imshow_class_band ax band class_labels "Greys_r"
         else raise TypeError) ;;
  let ax := set_title ax label in
  ret (set_axis_off ax).

(** [visualize_udm2(udm2)]: [np.split(udm2, udm2.shape[0], axis=0)] takes
    the remainder of the length of the first axis by itself, so that an
    array with no band raises [ZeroDivisionError]; the squeezed pieces
    go, in order, to the axes of a 4 x 2 grid; the axes that were drawn on
    are returned. *)
Definition visualize_udm2 (udm2 : array3) : result (list (Axes elem)) :=
  let axes_flat := repeat new_axes 8 in
  split <- (if (List.length (pieces udm2) =? 0)%nat
            then raise ZeroDivisionError
            else ret (pieces udm2)) ;;
  let bands := split in
  let bal := combine (combine bands axes_flat) udm2_labels in
  comprehension
    (fun bal => visualize_udm2_band (snd (fst bal)) (squeezed_ndim udm2)
                                    (fst (fst bal)) (snd bal))
    bal.

End Plot.

(* ===================================================================== *)
(** ** Vocabulary of the statements *)
(* ===================================================================== *)

Module Spec.

Import Np.
Local Open Scope Q_scope.

(** Membership in a list of numbers, up to numeric equality. *)
Definition InQ (q : Q) (l : list Q) : Prop := Exists (Qeq q) l.

(** [q] is the number at some unmasked place of [band]. *)
Definition valid_code (band : ndarray) (q : Q) : Prop :=
  exists x, In (Val x) (flatten band) /\ x == q.

(** [codes] lists the distinct codes of the valid entries of [band], in
    ascending order. *)
Definition distinct_codes (band : ndarray) (codes : list Q) : Prop :=
  StronglySorted Qlt codes /\ forall q, valid_code band q <-> InQ q codes.

(** No place of [band] is masked (a plain [ndarray]). *)
Definition unmasked (band : ndarray) : Prop := ~ In masked (flatten band).

(** The position of the [i]-th of [n] classes: [i / (n - 1)] when there
    are at least two classes, [0] otherwise. *)
Definition even_position (n i : nat) : Q :=
  if (2 <=? n)%nat
  then inject_Z (Z.of_nat i) / inject_Z (Z.of_nat n - 1)
  else 0.

(** The positions of [n] classes, one per class, each in lowest terms. *)
Definition ticks (n : nat) : list Q :=
  map (fun i => Qred (even_position n i)) (seq 0 n).

(** The numbers [np.unique] finds at the unmasked places of [band]. *)
Definition unique_numbers (band : ndarray) : list Q :=
  unique1d (sort (compressed (flatten band))).

(** Keys that are pairwise different, as a dictionary compares them. *)
Definition distinct_keys (ks : list elem) : Prop :=
  ForallOrdPairs (fun a b => Dict.key_eqb a b = false) ks.

(** The number [x] is a key of [mapping], as [arry == k] compares. *)
Definition is_key {V : Type} (mapping : Dict.dict V) (x : Q) : Prop :=
  exists k v, In (k, v) mapping /\ eq_elem (Val x) k = true.

(** What the loop of [__call__] does to one cell [a] of the rounded
    array: each item of the mapping whose key equals [a] overwrites the
    cell of [new_arry], an array of kind [dt], which starts as [n]. *)
Definition assign_cell (dt : dtype) (mapping : Dict.dict Q) (a n : elem)
  : elem :=
  fold_left (fun n kv =>
               if eq_elem a (fst kv) then Val (stored dt (snd kv)) else n)
            mapping n.

End Spec.

(* ===================================================================== *)
(** ** Plain integer arrays, floats with infinities, further exceptions *)
(* ===================================================================== *)

Module NpInt.

Import Np.
Local Open Scope Z_scope.

(** A plain (unmasked) 2-D array of integers, such as the [uint8] bands
    that [rasterio] reads; a boolean array is one of 0 and 1. *)
Definition int_array : Type := list (list Z).

(** The same array seen as the array of numbers a normalizer is given. *)
Definition as_ndarray (a : int_array) : ndarray :=
  map (map (fun z => Val (inject_Z z))) a.

(** [ar.sort()] on integers. *)
Fixpoint insert_sorted (x : Z) (l : list Z) : list Z :=
  match l with
  | [] => [x]
  | y :: l' => if x <=? y then x :: l else y :: insert_sorted x l'
  end.

Fixpoint sort (l : list Z) : list Z :=
  match l with
  | [] => []
  | x :: l' => insert_sorted x (sort l')
  end.

Fixpoint keep_changes (prev : Z) (l : list Z) : list Z :=
  match l with
  | [] => []
  | y :: l' =>
      if y =? prev then keep_changes y l' else y :: keep_changes y l'
  end.

Definition unique1d (aux : list Z) : list Z :=
  match aux with
  | [] => []
  | x :: l' => x :: keep_changes x l'
  end.

(** [np.unique(a)] on a plain integer array. *)
Definition unique (a : int_array) : list Z :=
  unique1d (sort (List.concat a)).

(** [np.size(a)] and [np.count_nonzero(a)]. *)
Definition size (a : int_array) : Z :=
  Z.of_nat (List.length (List.concat a)).

Definition count_nonzero (a : int_array) : Z :=
  Z.of_nat (List.length (filter (fun z => negb (z =? 0)) (List.concat a))).

(** [a == k], a boolean array. *)
Definition eq_scalar (a : int_array) (k : Z) : int_array :=
  map (map (fun z => if z =? k then 1 else 0)) a.

(** [np.logical_or(a, b)] on arrays of one shape. *)
Definition logical_or (a b : int_array) : int_array :=
  map2 (map2 (fun x y => if Py.truthy x || Py.truthy y then 1 else 0)) a b.

(** The element at row [i], column [j] of a 2-D array. *)
Definition at2 {A : Type} (a : list (list A)) (i j : nat) : option A :=
  match nth_error a i with
  | Some row => nth_error row j
  | None => None
  end.

End NpInt.

Module Float.

Local Open Scope Q_scope.

(** A float: a number (idealised as a rational), an infinity, or nan. *)
Inductive fval : Type :=
| Fin (x : Q)
| PInf
| NInf
| NaN.

(** [a / b] on finite floats once
    [np.seterr(divide='ignore', invalid='ignore')] is in force: a zero
    denominator gives an infinity of the sign of [a], and nan for 0/0. *)
Definition div (a b : Q) : fval :=
  if Qeq_bool b 0 then
    match Qcompare a 0 with
    | Eq => NaN
    | Gt => PInf
    | Lt => NInf
    end
  else Fin (a / b).

(** [a >= q] and [a < q]; a comparison with nan is false. *)
Definition ge (a : fval) (q : Q) : bool :=
  match a with
  | Fin x => Qle_bool q x
  | PInf => true
  | NInf => false
  | NaN => false
  end.

Definition lt (a : fval) (q : Q) : bool :=
  match a with
  | Fin x => negb (Qle_bool q x)
  | PInf => false
  | NInf => true
  | NaN => false
  end.

End Float.

Module Err.

Import Np.

(** The exceptions of the code below: a subscript out of bounds, an
    integer division by zero, or an exception of the rendering code. *)
Inductive error : Type :=
| IndexError
| ZeroDivisionError
| Raised (e : Exn.exn).

Definition lift {A : Type} (r : Exn.result A) : sum error A :=
  match r with
  | inl e => inl (Raised e)
  | inr a => inr a
  end.

(** [a[i, ...]]: the subscript [i] on the first axis; a negative [i]
    counts from the end. *)
Definition getitem_axis0 {A : Type} (a : list A) (i : Z) : sum error A :=
  let n := Z.of_nat (List.length a) in
  let j := if (i <? 0)%Z then (i + n)%Z else i in
  if ((0 <=? j) && (j <? n))%Z
  then match nth_error a (Z.to_nat j) with
       | Some x => inr x
       | None => inl IndexError
       end
  else inl IndexError.

End Err.

(* ===================================================================== *)
(** ** The rest of the udm2 notebook *)
(* ===================================================================== *)

Module Udm2.

Import Np NpInt Exn Err Plot.
Local Open Scope monad_scope.
Local Open Scope string_scope.

(** The cell that prints the share of clear pixels: the value of
    [percent_clear]. [np.size] returns a Python integer; [np.count_nonzero]
    returns a Python integer in older versions of numpy and a numpy
    integer in newer ones, and [python_int] says which. On a band with no
    pixel the quotient 0/0 is then [ZeroDivisionError] of Python integers,
    or nan of numpy's arithmetic. *)
Definition percent_clear (python_int : bool) (udm2 : list int_array)
  : sum error Float.fval :=
  band <- getitem_axis0 udm2 0 ;;
  let num_pixels := size band in
  let num_clear := count_nonzero band in
  if (num_pixels =? 0)%Z
  then (if python_int then raise ZeroDivisionError else ret Float.NaN)
  else ret (Float.Fin (inject_Z (100 * (num_pixels - num_clear))
                       / inject_Z num_pixels)%Q).

(** [plot_classified_band(class_band, class_labels, cmap, title)] on the
    axes of a new figure. *)
Definition plot_classified_band {L : Type} (class_band : ndarray)
           (class_labels : option (Dict.dict L)) (cmap title : string)
  : result (Axes L) :=
  let ax := new_axes in
  ax <- imshow_class_band ax class_band class_labels cmap ;;
  let ax := set_title ax title in
  ret (set_axis_off ax).

(** [get_udm_labels(udm)]: the label of each distinct value of [udm]. *)
Definition get_udm_labels (udm : int_array) : Dict.dict string :=
  Dict.of_pairs
    (map (fun v => (Val (inject_Z v), Udm.get_label v)) (NpInt.unique udm)).

(** [visualize_udm2_unusable(udm2)]. *)
Definition visualize_udm2_unusable (udm2 : list int_array)
  : sum error (Axes string) :=
  let ax := new_axes in
  band <- getitem_axis0 udm2 (-1) ;;
  label <- getitem_axis0 udm2_labels (-1) ;;
  ax <- lift (imshow_class_band ax (as_ndarray band)
                                (Some (get_udm_labels band)) "rainbow") ;;
  let ax := set_title ax label in
  ret (set_axis_off ax).

(** [mask_class_labels = {0: 'unmasked', 1: 'masked'}] and [mask_cmap]. *)
Definition mask_class_labels : Dict.dict string :=
  Dict.of_pairs [(Val 0, "unmasked"); (Val 1, "masked")].

Definition mask_cmap : string := "viridis".

(** [mask_unclear(udm2_array)] and the cell that plots it. *)
Definition mask_unclear (udm2_array : list int_array) : sum error int_array :=
  band <- getitem_axis0 udm2_array 0 ;;
  ret (eq_scalar band 0).

Definition plot_mask_unclear (udm2 : list int_array)
  : sum error (Axes string) :=
  m <- mask_unclear udm2 ;;
  lift (plot_classified_band (as_ndarray m) (Some mask_class_labels)
                             mask_cmap "Mask All Unclear Pixels").

(** [mask_cloud_shadow(udm2_array)] and the cell that plots it. *)
Definition mask_cloud_shadow (udm2_array : list int_array)
  : sum error int_array :=
  shadow_band <- getitem_axis0 udm2_array 2 ;;
  cloud_band <- getitem_axis0 udm2_array 5 ;;
  let masked_pixels :=
    logical_or (eq_scalar shadow_band 1) (eq_scalar cloud_band 1) in
  ret masked_pixels.

Definition plot_mask_cloud_shadow (udm2 : list int_array)
  : sum error (Axes string) :=
  m <- mask_cloud_shadow udm2 ;;
  lift (plot_classified_band (as_ndarray m) (Some mask_class_labels)
                             mask_cmap
                             "Mask All Cloud and Cloud Shadow Pixels").

End Udm2.

(* ===================================================================== *)
(** ** The NDWI notebook *)
(* ===================================================================== *)

Module Ndwi.

Import Np NpInt Float.

(** [green + nir] in the unsigned integer type of the bands, [w] bits
    wide (16 for the analytic file the notebook opens): the sum wraps. *)
Definition add_bands (w : Z) (green nir : int_array) : int_array :=
  map2 (map2 (fun g n => ((g + n) mod 2 ^ w)%Z)) green nir.

(** [a.astype(float)]: exact on the integers a float holds exactly, those
    of at most 53 bits, which the values of the unsigned types of 8, 16
    and 32 bits are. *)
Definition astype_float (a : int_array) : list (list Q) :=
  map (map inject_Z) a.

(** [(green.astype(float) - nir.astype(float)) / (green + nir)]. *)
Definition ndwi (w : Z) (green nir : int_array) : list (list fval) :=
  map2 (map2 div)
       (map2 (map2 Qminus) (astype_float green) (astype_float nir))
       (astype_float (add_bands w green nir)).

(** [water_mask = np.full(ndwi.shape, np.nan); water_mask[ndwi >= 0] = 1]
    and the same for [land_mask] with [ndwi < 0]. *)
Definition water_mask (ndwi : list (list fval)) : list (list fval) :=
  map (map (fun x => if ge x 0 then Fin 1 else NaN)) ndwi.

Definition land_mask (ndwi : list (list fval)) : list (list fval) :=
  map (map (fun x => if lt x 0 then Fin 1 else NaN)) ndwi.

End Ndwi.

(* ===================================================================== *)
(** * Properties of the legacy mask decoder *)
(* ===================================================================== *)

Module UdmFacts.

Import Py Udm.
Local Open Scope Z_scope.

Lemma truthy_land_pow2 v k :
  0 <= k -> truthy (Z.land v (2 ^ k)) = Z.testbit v k.
Proof.
  intros Hk. unfold truthy.
  destruct (Z.testbit v k) eqn:Hb.
  - destruct (Z.eqb_spec (Z.land v (2 ^ k)) 0) as [E | _]; [| reflexivity].
    exfalso.
    assert (Hk' : Z.testbit (Z.land v (2 ^ k)) k = true)
      by (rewrite Z.land_spec, Hb, Z.pow2_bits_true by assumption;
          reflexivity).
    rewrite E, Z.bits_0 in Hk'. discriminate.
  - replace (Z.land v (2 ^ k)) with 0; [reflexivity |].
    symmetry. apply Z.bits_inj'. intros n Hn.
    rewrite Z.land_spec, Z.bits_0, Z.pow2_bits_eqb by assumption.
    destruct (Z.eqb_spec k n) as [-> | _].
    + rewrite Hb. reflexivity.
    + apply andb_false_r.
Qed.

Lemma truthy_lor a b : truthy (Z.lor a b) = truthy a || truthy b.
Proof.
  unfold truthy.
  destruct (Z.eqb_spec a 0) as [-> | Ha]; simpl.
  - reflexivity.
  - destruct (Z.eqb_spec (Z.lor a b) 0) as [E | _]; [| reflexivity].
    apply Z.lor_eq_0_iff in E. tauto.
Qed.

Lemma truthy_channel_mask v :
  truthy (Z.land v (int2 "11111100")) = any_channel_bit v.
Proof.
  change (int2 "11111100")
    with (Z.lor (2 ^ 2) (Z.lor (2 ^ 3) (Z.lor (2 ^ 4)
            (Z.lor (2 ^ 5) (Z.lor (2 ^ 6) (2 ^ 7)))))).
  rewrite !Z.land_lor_distr_r, !truthy_lor, !truthy_land_pow2 by lia.
  unfold any_channel_bit, channels. cbn [existsb fst].
  rewrite orb_false_r. reflexivity.
Qed.

Lemma bands_channel_names v : bands v = channel_names v.
Proof.
  unfold bands, channel_names.
  change (int2 "100") with (2 ^ 2).
  change (int2 "1000") with (2 ^ 3).
  change (int2 "10000") with (2 ^ 4).
  change (int2 "100000") with (2 ^ 5).
  change (int2 "1000000") with (2 ^ 6).
  change (int2 "10000000") with (2 ^ 7).
  rewrite !truthy_land_pow2 by lia.
  unfold channels. cbv zeta. cbn [filter map fst snd].
  destruct (Z.testbit v 2), (Z.testbit v 3), (Z.testbit v 4),
    (Z.testbit v 5), (Z.testbit v 6), (Z.testbit v 7); reflexivity.
Qed.

Lemma flag_labels_parts v :
  flag_labels v = (cloud_part v ++ channel_part v)%list.
Proof.
  unfold flag_labels, cloud_part, channel_part.
  change (int2 "10") with (2 ^ 1).
  rewrite truthy_land_pow2, truthy_channel_mask, bands_channel_names by lia.
  unfold format_missing.
  destruct (Z.testbit v 1), (any_channel_bit v); reflexivity.
Qed.

(** A byte whose bits 1 to 7 are all clear is 0 or 1. *)
Lemma byte_without_flags v :
  0 <= v <= 255 ->
  Z.land v (int2 "10") = 0 -> Z.land v (int2 "11111100") = 0 -> v < 2.
Proof.
  intros Hv H1 H2.
  assert (E : v = Z.land v (Z.ones 8)).
  { rewrite Z.land_ones by lia. symmetry. apply Z.mod_small.
    change (2 ^ 8) with 256. lia. }
  change (Z.ones 8)
    with (Z.lor (Z.ones 1) (Z.lor (int2 "10") (int2 "11111100"))) in E.
  rewrite !Z.land_lor_distr_r, H1, H2 in E.
  change (Z.lor 0 0) with 0 in E. rewrite Z.lor_0_r in E.
  rewrite Z.land_ones in E by lia.
  change (2 ^ 1) with 2 in E.
  pose proof (Z.mod_pos_bound v 2 ltac:(lia)). lia.
Qed.

Lemma flag_labels_nonempty v : 2 <= v <= 255 -> flag_labels v <> [].
Proof.
  intros Hv Hnil.
  assert (Hlt : v < 2); [| lia].
  apply byte_without_flags; [lia | |].
  - unfold flag_labels, truthy in Hnil.
    destruct (Z.eqb_spec (Z.land v (int2 "10")) 0) as [E | _];
      [exact E |].
    simpl in Hnil.
    destruct (negb (Z.land v (int2 "11111100") =? 0)); discriminate.
  - unfold flag_labels, truthy in Hnil.
    destruct (Z.eqb_spec (Z.land v (int2 "11111100")) 0) as [E | _];
      [exact E |].
    simpl in Hnil.
    destruct (negb (Z.land v (int2 "10") =? 0)); discriminate.
Qed.

Lemma get_label_flags v :
  2 <= v <= 255 -> get_label v = join " + " (flag_labels v).
Proof.
  intros Hv. unfold get_label.
  destruct (Z.eqb_spec v 0) as [? | _]; [lia |].
  destruct (Z.eqb_spec v 1) as [? | _]; [lia |].
  pose proof (flag_labels_nonempty v Hv) as Hne.
  destruct (flag_labels v); [congruence | reflexivity].
Qed.

Lemma range_from_forallb (P : Z -> bool) lo n :
  forallb P (range_from lo n) = true ->
  forall v, lo <= v < lo + Z.of_nat n -> P v = true.
Proof.
  intros Hall v Hv. rewrite forallb_forall in Hall. apply Hall.
  unfold range_from. apply in_map_iff.
  exists (Z.to_nat (v - lo)). split; [lia |].
  apply in_seq. lia.
Qed.

(** Clearing bit 0 does not change what a mask with bit 0 clear sees. *)
Lemma land_clearbit0 v m :
  Z.testbit m 0 = false -> Z.land (Z.clearbit v 0) m = Z.land v m.
Proof.
  intros Hm. apply Z.bits_inj'. intros n Hn.
  rewrite !Z.land_spec, Z.clearbit_eqb.
  destruct (Z.eqb_spec 0 n) as [<- | _].
  - rewrite Hm, !andb_false_r. reflexivity.
  - rewrite andb_true_r. reflexivity.
Qed.

Lemma clearbit0_double v : Z.clearbit v 0 = 2 * (v / 2).
Proof.
  apply Z.bits_inj'. intros n Hn.
  rewrite Z.clearbit_eqb.
  destruct (Z.eqb_spec 0 n) as [<- | Hne].
  - rewrite Z.testbit_even_0, andb_false_r. reflexivity.
  - rewrite andb_true_r.
    replace n with (Z.succ (n - 1)) by lia.
    rewrite Z.testbit_even_succ by lia.
    rewrite <- Z.div2_div, Z.div2_spec, Z.shiftr_spec by lia.
    reflexivity.
Qed.

Lemma flag_labels_clearbit0 v : flag_labels (Z.clearbit v 0) = flag_labels v.
Proof.
  unfold flag_labels, bands.
  rewrite !land_clearbit0 by reflexivity. reflexivity.
Qed.

Lemma channel_names_nonempty v :
  any_channel_bit v = true -> channel_names v <> [].
Proof.
  unfold any_channel_bit, channel_names. intros Hany Hnil.
  apply existsb_exists in Hany. destruct Hany as [c [Hin Hbit]].
  assert (Hc : In c (filter (fun c => Z.testbit v (fst c)) channels))
    by (apply filter_In; split; assumption).
  apply (in_map snd) in Hc. rewrite Hnil in Hc. exact Hc.
Qed.

Lemma get_label_not_binary_string v :
  2 <= v <= 255 -> get_label v <> format_08b v.
Proof.
  intros Hv Heq.
  assert (Hall : forallb
                   (fun v => negb (String.eqb (get_label v) (format_08b v)))
                   (range_from 2 254) = true) by (vm_compute; reflexivity).
  pose proof (range_from_forallb _ _ _ Hall v ltac:(lia)) as Hneq.
  simpl in Hneq. rewrite Heq, String.eqb_refl in Hneq. discriminate.
Qed.

(** C6. [get_label] is defined on every byte 0..255, and on a byte other
    than 0 and 1 the list [labels] is never empty when the fallback test
    [if not len(labels)] is reached: it holds "cloud" or the
    missing/suspect label of a non-empty channel list, the result is the
    " + "-join of those labels, and it is never the 8-digit binary
    rendering of the byte. *)
Theorem get_label_fallback_unreachable (v : Z) :
  0 <= v <= 255 ->
  (v = 0 /\ get_label v = "clear"%string) \/
  (v = 1 /\ get_label v = "blackfill"%string) \/
  (2 <= v /\
   flag_labels v <> [] /\
   get_label v = join " + " (flag_labels v) /\
   get_label v <> format_08b v /\
   (In "cloud"%string (flag_labels v) \/
    bands v <> [] /\
    In (format_missing (join ", " (bands v))) (flag_labels v))).
Proof.
  intros Hv.
  destruct (Z.eq_dec v 0) as [-> | H0]; [left; split; reflexivity |].
  destruct (Z.eq_dec v 1) as [-> | H1];
    [right; left; split; reflexivity |].
  right; right.
  assert (Hv2 : 2 <= v <= 255) by lia.
  split; [lia |].
  split; [apply flag_labels_nonempty; exact Hv2 |].
  split; [apply get_label_flags; exact Hv2 |].
  split; [apply get_label_not_binary_string; exact Hv2 |].
  pose proof (flag_labels_nonempty v Hv2) as Hne.
  rewrite bands_channel_names.
  rewrite flag_labels_parts in *.
  unfold cloud_part, channel_part in *.
  destruct (Z.testbit v 1).
  - left. left. reflexivity.
  - right. destruct (any_channel_bit v) eqn:Hany.
    + split; [apply channel_names_nonempty; exact Hany |].
      left. reflexivity.
    + exfalso. apply Hne. reflexivity.
Qed.

Lemma get_label_fallback_unreachable_at_6 :
  0 <= 6 <= 255 /\
  ((6 = 0 /\ get_label 6 = "clear"%string) \/
   (6 = 1 /\ get_label 6 = "blackfill"%string) \/
   (2 <= 6 /\
    flag_labels 6 <> [] /\
    get_label 6 = join " + " (flag_labels 6) /\
    get_label 6 <> format_08b 6 /\
    (In "cloud"%string (flag_labels 6) \/
     bands 6 <> [] /\
     In (format_missing (join ", " (bands 6))) (flag_labels 6)))).
Proof.
  split; [lia | apply (get_label_fallback_unreachable 6); lia].
Defined.

(** C7. On a byte 2..255 [get_label] is the " + "-join of "cloud",
    present exactly when bit 1 is set, and of the single label
    "missing/suspect <channels> data", present exactly when one of bits
    2..7 is set, whose channels are the ", "-join, in ascending bit
    order, of the names of the set bits; and the byte 0b11111110 gives
    "cloud" plus all six channels in their fixed order. *)
Theorem get_label_composed (v : Z) :
  2 <= v <= 255 ->
  get_label v = composed_label v /\
  get_label (int2 "11111110") =
    ("cloud + missing/suspect Blue, Green, Red, Red-Edge, NIR, "
       ++ "Coastal Blue/Green I/Yellow data")%string.
Proof.
  intros Hv. split; [| reflexivity].
  rewrite get_label_flags by exact Hv.
  unfold composed_label. rewrite flag_labels_parts. reflexivity.
Qed.

Lemma get_label_composed_at_6 :
  2 <= 6 <= 255 /\
  get_label 6 = composed_label 6 /\
  get_label (int2 "11111110") =
    ("cloud + missing/suspect Blue, Green, Red, Red-Edge, NIR, "
       ++ "Coastal Blue/Green I/Yellow data")%string.
Proof.
  split; [lia | apply (get_label_composed 6); lia].
Defined.

(** C9. On a byte 2..255 the label does not depend on bit 0 (blackfill):
    the byte and the byte with bit 0 cleared get the same label; so 3 is
    labelled "cloud" and nothing else. *)
Theorem get_label_ignores_bit0 (v : Z) :
  2 <= v <= 255 ->
  get_label v = get_label (Z.clearbit v 0) /\
  get_label 3 = "cloud"%string.
Proof.
  intros Hv. split; [| reflexivity].
  assert (Hc : 2 <= Z.clearbit v 0 <= 255).
  { rewrite clearbit0_double.
    pose proof (Z.div_mod v 2 ltac:(lia)) as Hdm.
    pose proof (Z.mod_pos_bound v 2 ltac:(lia)) as Hm. lia. }
  rewrite (get_label_flags v Hv), (get_label_flags _ Hc).
  rewrite flag_labels_clearbit0. reflexivity.
Qed.

Lemma get_label_ignores_bit0_at_7 :
  2 <= 7 <= 255 /\
  get_label 7 = get_label (Z.clearbit 7 0) /\
  get_label 3 = "cloud"%string.
Proof.
  split; [lia | apply (get_label_ignores_bit0 7); lia].
Defined.

End UdmFacts.

(* ===================================================================== *)
(** * Properties of sorting and [np.unique] *)
(* ===================================================================== *)

Module NpFacts.

Import Np Spec.
Local Open Scope Q_scope.

Lemma InQ_cons q x l : InQ q (x :: l) <-> q == x \/ InQ q l.
Proof. unfold InQ. apply Exists_cons. Qed.

Lemma InQ_nil q : ~ InQ q [].
Proof. unfold InQ. intros H. inversion H. Qed.

Lemma InQ_In q l : InQ q l <-> exists x, In x l /\ x == q.
Proof.
  unfold InQ. rewrite Exists_exists. split; intros [x [Hin Hx]];
    exists x; split; try assumption; symmetry; assumption.
Qed.

Lemma InQ_perm q l l' : Permutation l l' -> InQ q l -> InQ q l'.
Proof.
  intros P H. apply InQ_In in H. destruct H as [x [Hin Hx]].
  apply InQ_In. exists x. split; [| assumption].
  eapply Permutation_in; eassumption.
Qed.

(** *** Insertion sort *)

Lemma insert_sorted_perm x l : Permutation (x :: l) (insert_sorted x l).
Proof.
  induction l as [| y l IH]; simpl.
  - apply Permutation_refl.
  - destruct (Qle_bool x y).
    + apply Permutation_refl.
    + eapply perm_trans; [apply perm_swap |].
      apply perm_skip. exact IH.
Qed.

Lemma sort_perm l : Permutation l (sort l).
Proof.
  induction l as [| x l IH]; simpl.
  - apply perm_nil.
  - eapply perm_trans; [apply perm_skip; exact IH |].
    apply insert_sorted_perm.
Qed.

Lemma insert_sorted_sorted x l :
  StronglySorted Qle l -> StronglySorted Qle (insert_sorted x l).
Proof.
  induction 1 as [| y l Hl IH Hy]; simpl.
  - constructor; constructor.
  - destruct (Qle_bool x y) eqn:Hxy.
    + apply Qle_bool_iff in Hxy.
      constructor; [constructor; assumption |].
      constructor; [assumption |].
      eapply Forall_impl; [| exact Hy].
      intros z Hz. eapply Qle_trans; eassumption.
    + assert (Hyx : y <= x).
      { apply Qlt_le_weak. apply Qnot_le_lt. intros Hle.
        apply Qle_bool_iff in Hle. congruence. }
      constructor; [exact IH |].
      eapply Permutation_Forall; [apply insert_sorted_perm |].
      constructor; assumption.
Qed.

Lemma sort_sorted l : StronglySorted Qle (sort l).
Proof.
  induction l as [| x l IH]; simpl.
  - constructor.
  - apply insert_sorted_sorted. exact IH.
Qed.

(** *** Dropping repeated neighbours *)

Lemma keep_changes_spec l : forall prev,
  StronglySorted Qle (prev :: l) ->
  StronglySorted Qlt (prev :: keep_changes prev l) /\
  (forall q, InQ q (prev :: keep_changes prev l) <-> InQ q (prev :: l)).
Proof.
  induction l as [| y l IH]; intros prev Hs; simpl.
  - split; [constructor; constructor | tauto].
  - inversion Hs as [| ? ? Hs' Hall]; subst.
    inversion Hall as [| ? ? Hpy Hall']; subst.
    destruct (IH y Hs') as [IHs IHin].
    inversion IHs as [| ? ? IHs' IHall]; subst.
    destruct (Qeq_bool y prev) eqn:Hyp.
    + apply Qeq_bool_iff in Hyp. split.
      * constructor; [assumption |].
        eapply Forall_impl; [| exact IHall].
        intros z Hz. rewrite <- Hyp. exact Hz.
      * intros q. specialize (IHin q).
        rewrite !InQ_cons in *.
        assert (Hq : q == prev <-> q == y)
          by (split; intros E; rewrite E; [symmetry |]; exact Hyp).
        tauto.
    + assert (Hlt : prev < y).
      { apply Qle_lt_or_eq in Hpy. destruct Hpy as [? | E]; [assumption |].
        exfalso. symmetry in E. apply Qeq_bool_iff in E. congruence. }
      split.
      * constructor; [exact IHs |].
        constructor; [exact Hlt |].
        eapply Forall_impl; [| exact IHall].
        intros z Hz. eapply Qlt_trans; eassumption.
      * intros q. specialize (IHin q).
        rewrite !InQ_cons in *. tauto.
Qed.

Lemma unique1d_spec l :
  StronglySorted Qle l ->
  StronglySorted Qlt (unique1d l) /\
  (forall q, InQ q (unique1d l) <-> InQ q l).
Proof.
  destruct l as [| x l]; simpl; intros Hs.
  - split; [constructor | tauto].
  - apply keep_changes_spec. exact Hs.
Qed.

(** *** Two ascending lists with the same members are the same list *)

Lemma ascending_head_least x l q :
  StronglySorted Qlt (x :: l) -> InQ q l -> x < q.
Proof.
  intros Hs Hin. inversion Hs as [| ? ? _ Hall]; subst.
  apply InQ_In in Hin. destruct Hin as [y [Hy Hyq]].
  rewrite Forall_forall in Hall. rewrite <- Hyq. apply Hall. exact Hy.
Qed.

Lemma ascending_unique l1 : forall l2,
  StronglySorted Qlt l1 -> StronglySorted Qlt l2 ->
  (forall q, InQ q l1 <-> InQ q l2) ->
  Forall2 Qeq l1 l2.
Proof.
  induction l1 as [| a l1 IH]; intros [| b l2] H1 H2 Hmem.
  - constructor.
  - exfalso. apply (InQ_nil b). apply Hmem. apply InQ_cons. left. reflexivity.
  - exfalso. apply (InQ_nil a). apply Hmem. apply InQ_cons. left. reflexivity.
  - assert (Hab : a == b).
    { assert (Ha : InQ a (b :: l2))
        by (apply Hmem, InQ_cons; left; reflexivity).
      assert (Hb : InQ b (a :: l1))
        by (apply Hmem, InQ_cons; left; reflexivity).
      apply InQ_cons in Ha. apply InQ_cons in Hb.
      destruct Ha as [? | Ha]; [assumption |].
      destruct Hb as [? | Hb]; [symmetry; assumption |].
      exfalso.
      pose proof (ascending_head_least _ _ _ H2 Ha) as L1.
      pose proof (ascending_head_least _ _ _ H1 Hb) as L2.
      apply (Qlt_irrefl a). eapply Qlt_trans; eassumption. }
    constructor; [exact Hab |].
    inversion H1 as [| ? ? H1' _]; subst.
    inversion H2 as [| ? ? H2' _]; subst.
    apply IH; try assumption.
    intros q. split; intros Hq.
    + assert (Hq' : InQ q (b :: l2)) by (apply Hmem, InQ_cons; right; exact Hq).
      apply InQ_cons in Hq'. destruct Hq' as [E | ?]; [| assumption].
      exfalso. pose proof (ascending_head_least _ _ _ H1 Hq) as L.
      rewrite E, Hab in L. exact (Qlt_irrefl _ L).
    + assert (Hq' : InQ q (a :: l1)) by (apply Hmem, InQ_cons; right; exact Hq).
      apply InQ_cons in Hq'. destruct Hq' as [E | ?]; [| assumption].
      exfalso. pose proof (ascending_head_least _ _ _ H2 Hq) as L.
      rewrite E, Hab in L. exact (Qlt_irrefl _ L).
Qed.

End NpFacts.

(* ===================================================================== *)
(** * Properties of dictionaries *)
(* ===================================================================== *)

Module DictFacts.

Import Np Spec.
Local Open Scope Q_scope.

Section Values.

Context {V : Type}.
Implicit Types (d : Dict.dict V) (k : elem) (v : V).

Lemma set_fresh d k v :
  Forall (fun k' => Dict.key_eqb k' k = false) (Dict.keys d) ->
  Dict.set d k v = (d ++ [(k, v)])%list.
Proof.
  induction d as [| [k' v'] d IH]; simpl; intros Hf.
  - reflexivity.
  - inversion Hf as [| ? ? Hk Hf']; subst. simpl in Hk. rewrite Hk.
    rewrite IH by exact Hf'. reflexivity.
Qed.

Lemma distinct_keys_snoc ks k :
  distinct_keys (ks ++ [k]) ->
  Forall (fun k' => Dict.key_eqb k' k = false) ks.
Proof.
  unfold distinct_keys. induction ks as [| a ks IH]; simpl; intros H.
  - constructor.
  - inversion H as [| ? ? Ha H']; subst. constructor.
    + rewrite Forall_forall in Ha. apply Ha. apply in_or_app.
      right. left. reflexivity.
    + apply IH. exact H'.
Qed.

Lemma distinct_keys_prefix ks ks' :
  distinct_keys (ks ++ ks') -> distinct_keys ks.
Proof.
  unfold distinct_keys. induction ks as [| a ks IH]; simpl; intros H.
  - constructor.
  - inversion H as [| ? ? Ha H']; subst. constructor.
    + rewrite Forall_app in Ha. apply Ha.
    + apply IH. exact H'.
Qed.

Lemma fold_set_distinct pairs : forall acc,
  distinct_keys (map fst (acc ++ pairs)) ->
  fold_left (fun d kv => Dict.set d (fst kv) (snd kv)) pairs acc
  = (acc ++ pairs)%list.
Proof.
  induction pairs as [| [k v] pairs IH]; intros acc Hd; simpl.
  - rewrite app_nil_r. reflexivity.
  - replace (acc ++ (k, v) :: pairs)%list
      with ((acc ++ [(k, v)]) ++ pairs)%list in *
      by (rewrite <- app_assoc; reflexivity).
    rewrite set_fresh.
    + apply IH. exact Hd.
    + rewrite map_app in Hd. apply distinct_keys_prefix in Hd.
      rewrite map_app in Hd. simpl in Hd.
      apply distinct_keys_snoc in Hd. exact Hd.
Qed.

(** [dict(pairs)] of pairs with pairwise different keys is [pairs]. *)
Lemma of_pairs_distinct (pairs : list (elem * V)) :
  distinct_keys (map fst pairs) -> Dict.of_pairs pairs = pairs.
Proof.
  intros Hd. unfold Dict.of_pairs. apply (fold_set_distinct pairs []).
  exact Hd.
Qed.

Lemma get_None d k : Dict.get d k = None ->
  Forall (fun k' => Dict.key_eqb k' k = false) (Dict.keys d).
Proof.
  induction d as [| [k0 v0] d IH]; simpl; intros H; [constructor |].
  destruct (Dict.key_eqb k0 k) eqn:E; [discriminate |].
  constructor; [exact E | apply IH; exact H].
Qed.

Lemma get_key_present d k k' :
  In k' (Dict.keys d) -> Dict.key_eqb k' k = true ->
  exists v, Dict.get d k = Some v.
Proof.
  intros Hin Hk. destruct (Dict.get d k) as [v |] eqn:G.
  - exists v. reflexivity.
  - apply get_None in G. rewrite Forall_forall in G.
    specialize (G k' Hin). congruence.
Qed.

End Values.

Lemma key_eqb_refl k : Dict.key_eqb k k = true.
Proof.
  destruct k as [x |]; simpl; [| reflexivity].
  apply Qeq_bool_iff. reflexivity.
Qed.

(** Ascending numbers are pairwise different keys. *)
Lemma ascending_distinct_keys codes :
  StronglySorted Qlt codes -> distinct_keys (map Val codes).
Proof.
  unfold distinct_keys. induction 1 as [| x l Hl IH Hx]; simpl.
  - constructor.
  - constructor; [| exact IH].
    rewrite Forall_map. eapply Forall_impl; [| exact Hx].
    intros y Hxy. simpl.
    destruct (Qeq_bool x y) eqn:E; [| reflexivity].
    apply Qeq_bool_iff in E. rewrite E in Hxy.
    exfalso. exact (Qlt_irrefl _ Hxy).
Qed.

End DictFacts.

(* ===================================================================== *)
(** * Properties of the mapping built by [_ClassNormalize.__init__] *)
(* ===================================================================== *)

Module MappingFacts.

Import Np Exn Spec NpFacts DictFacts.
Local Open Scope Q_scope.

Lemma compressed_In x l : In x (compressed l) <-> In (Val x) l.
Proof.
  induction l as [| [y |] l IH]; simpl.
  - tauto.
  - rewrite IH. split; intros [E | H]; auto.
    + left. f_equal. exact E.
    + left. injection E as ->. reflexivity.
  - rewrite IH. split; [auto | intros [E | H]; [discriminate | exact H]].
Qed.

Lemma valid_code_compressed band q :
  valid_code band q <-> InQ q (compressed (flatten band)).
Proof.
  unfold valid_code. rewrite InQ_In.
  split; intros [x [Hin Hx]]; exists x; split; try assumption;
    apply compressed_In; assumption.
Qed.

(** The numbers [np.unique] returns are the distinct valid codes. *)
Lemma unique_numbers_distinct band :
  distinct_codes band (unique_numbers band).
Proof.
  unfold unique_numbers.
  destruct (unique1d_spec _ (sort_sorted (compressed (flatten band))))
    as [Hs Hin].
  split; [exact Hs |].
  intros q. rewrite Hin, valid_code_compressed.
  split; apply InQ_perm; [| apply Permutation_sym]; apply sort_perm.
Qed.

Lemma distinct_codes_unique band codes :
  distinct_codes band codes -> Forall2 Qeq (unique_numbers band) codes.
Proof.
  intros [Hs Hin]. destruct (unique_numbers_distinct band) as [Hs' Hin'].
  apply ascending_unique; try assumption.
  intros q. rewrite <- Hin, <- Hin'. tauto.
Qed.

Lemma filter_unmasked_map_Val l :
  filter (fun v => negb (isinstance_MaskedConstant v)) (map Val l)
  = map Val l.
Proof.
  induction l as [| x l IH]; simpl; [| rewrite IH]; reflexivity.
Qed.

(** The comprehension of [__init__] drops the masked element of
    [np.unique] and nothing else. *)
Lemma filter_unique band :
  filter (fun v => negb (isinstance_MaskedConstant v)) (unique band)
  = map Val (unique_numbers band).
Proof.
  unfold unique. rewrite filter_app, filter_unmasked_map_Val.
  destruct (has_masked (flatten band)); simpl; apply app_nil_r.
Qed.

Lemma has_masked_unmasked band :
  unmasked band -> has_masked (flatten band) = false.
Proof.
  unfold unmasked, has_masked. intros Hu.
  destruct (existsb isinstance_MaskedConstant (flatten band)) eqn:E;
    [| reflexivity].
  apply existsb_exists in E. destruct E as [[x |] [Hin Hx]];
    [discriminate | contradiction].
Qed.

Lemma unique_unmasked band :
  unmasked band -> unique band = map Val (unique_numbers band).
Proof.
  intros Hu. unfold unique. rewrite (has_masked_unmasked band Hu).
  apply app_nil_r.
Qed.

Lemma ticks_length n : List.length (ticks n) = n.
Proof. unfold ticks. rewrite length_map, length_seq. reflexivity. Qed.

Lemma combine_color_ticks (values : list elem) :
  combine values
    (if (1 <? List.length values)%nat
     then arange_div (List.length values)
                     (Z.of_nat (List.length values) - 1)
     else [0])
  = combine values (ticks (List.length values)).
Proof.
  destruct values as [| a [| b values]]; reflexivity.
Qed.

Lemma map_fst_combine {A B : Type} (l1 : list A) : forall (l2 : list B),
  List.length l1 = List.length l2 -> map fst (combine l1 l2) = l1.
Proof.
  induction l1 as [| a l1 IH]; intros [| b l2] H; simpl in *;
    try discriminate; [reflexivity |].
  f_equal. apply IH. congruence.
Qed.

Lemma map_snd_combine {A B : Type} (l1 : list A) : forall (l2 : list B),
  List.length l1 = List.length l2 -> map snd (combine l1 l2) = l2.
Proof.
  induction l1 as [| a l1 IH]; intros [| b l2] H; simpl in *;
    try discriminate; [reflexivity |].
  f_equal. apply IH. congruence.
Qed.

(** [__init__] never raises, and the mapping pairs the sorted distinct
    valid codes with the ticks. *)
Lemma init_spec band :
  ClassNormalize.__init__ band
  = inr (combine (map Val (unique_numbers band))
                 (ticks (List.length (unique_numbers band)))).
Proof.
  unfold ClassNormalize.__init__. simpl. f_equal.
  rewrite filter_unique, combine_color_ticks, length_map.
  apply of_pairs_distinct.
  assert (Hlen : List.length (map Val (unique_numbers band))
                 = List.length (ticks (List.length (unique_numbers band))))
    by (rewrite length_map, ticks_length; reflexivity).
  rewrite (map_fst_combine _ _ Hlen).
  apply ascending_distinct_keys. apply unique_numbers_distinct.
Qed.

Lemma Forall2_nth {A B : Type} (R : A -> B -> Prop) l1 l2 :
  Forall2 R l1 l2 ->
  forall i d1 d2, (i < List.length l1)%nat -> R (nth i l1 d1) (nth i l2 d2).
Proof.
  induction 1 as [| a b l1 l2 Hab _ IH]; intros [| i] d1 d2 Hi;
    simpl in *; try lia; [exact Hab |].
  apply IH. lia.
Qed.

Lemma ticks_nth n i :
  (i < n)%nat -> nth i (ticks n) 0 = Qred (even_position n i).
Proof.
  intros Hi. unfold ticks.
  rewrite (nth_indep _ 0 (Qred (even_position n 0)))
    by (rewrite length_map, length_seq; exact Hi).
  rewrite (map_nth (fun i => Qred (even_position n i))).
  rewrite seq_nth by exact Hi. reflexivity.
Qed.

Lemma even_position_lt n i j :
  (2 <= n)%nat -> (i < j)%nat -> even_position n i < even_position n j.
Proof.
  intros Hn Hij. unfold even_position.
  destruct (Nat.leb_spec 2 n) as [_ | ?]; [| lia].
  unfold Qdiv. apply Qmult_lt_r.
  - apply Qinv_lt_0_compat. change 0 with (inject_Z 0).
    rewrite <- Zlt_Qlt. lia.
  - rewrite <- Zlt_Qlt. lia.
Qed.

Lemma map_seq_ascending (f : nat -> Q) :
  (forall i j, (i < j)%nat -> f i < f j) ->
  forall n a, StronglySorted Qlt (map f (seq a n)).
Proof.
  intros Hf. induction n as [| n IH]; intros a; simpl.
  - constructor.
  - constructor; [apply IH |].
    rewrite Forall_map, Forall_forall. intros j Hj.
    apply in_seq in Hj. apply Hf. lia.
Qed.

Lemma ticks_ascending n : StronglySorted Qlt (ticks n).
Proof.
  destruct (Nat.leb_spec 2 n) as [Hn | Hn].
  - apply map_seq_ascending. intros i j Hij.
    rewrite !Qred_correct. apply even_position_lt; assumption.
  - destruct n as [| [| n]]; [| | lia].
    + constructor.
    + constructor; constructor.
Qed.

(** C4. If the valid entries of a band hold the [N] distinct codes
    [codes], listed in ascending order, then [__init__] returns a mapping
    of [N] items whose [i]-th item pairs the [i]-th code with the
    position [i / (N - 1)] when [N >= 2] and with [0] when [N = 1]; the
    positions are strictly increasing in code order; the mapping is empty
    when [N = 0]. *)
Theorem mapping_evenly_spaced (band : ndarray) (codes : list Q) :
  distinct_codes band codes ->
  exists m,
    ClassNormalize.__init__ band = inr m /\
    List.length m = List.length codes /\
    (forall i, (i < List.length codes)%nat ->
       exists k p,
         nth_error m i = Some (Val k, p) /\
         k == nth i codes 0 /\
         p == (if (2 <=? List.length codes)%nat
               then inject_Z (Z.of_nat i)
                    / inject_Z (Z.of_nat (List.length codes) - 1)
               else 0)) /\
    StronglySorted Qlt (Dict.values m) /\
    (List.length codes = 1%nat -> Dict.values m = [0]) /\
    (List.length codes = 0%nat -> m = []).
Proof.
  intros Hcodes.
  pose proof (distinct_codes_unique band codes Hcodes) as HU.
  pose proof (Forall2_length HU) as Hlen.
  set (U := unique_numbers band) in *.
  assert (HlenUT : List.length (map Val U)
                   = List.length (ticks (List.length U)))
    by (rewrite length_map, ticks_length; reflexivity).
  exists (combine (map Val U) (ticks (List.length U))).
  split; [apply init_spec |].
  split; [rewrite length_combine, length_map, ticks_length; lia |].
  split; [| split; [| split]].
  - intros i Hi.
    exists (nth i U 0), (Qred (even_position (List.length U) i)).
    split; [| split].
    + rewrite (nth_error_nth' _ (Val 0, 0))
        by (rewrite length_combine, length_map, ticks_length; lia).
      rewrite combine_nth by exact HlenUT.
      rewrite (map_nth Val), ticks_nth by lia. reflexivity.
    + apply (Forall2_nth _ _ _ HU). lia.
    + rewrite Qred_correct, Hlen. reflexivity.
  - unfold Dict.values. rewrite (map_snd_combine _ _ HlenUT).
    apply ticks_ascending.
  - intros H1. unfold Dict.values. rewrite (map_snd_combine _ _ HlenUT).
    rewrite Hlen, H1. reflexivity.
  - intros H0. rewrite Hlen, H0 in *.
    destruct U; [reflexivity | discriminate].
Qed.

Lemma mapping_evenly_spaced_example :
  let band := [[Val 3; masked; Val 9]; [Val 9; Val 6; Val 3]] in
  let codes := [3; 6; 9] in
  distinct_codes band codes /\
  exists m,
    ClassNormalize.__init__ band = inr m /\
    List.length m = List.length codes /\
    (forall i, (i < List.length codes)%nat ->
       exists k p,
         nth_error m i = Some (Val k, p) /\
         k == nth i codes 0 /\
         p == (if (2 <=? List.length codes)%nat
               then inject_Z (Z.of_nat i)
                    / inject_Z (Z.of_nat (List.length codes) - 1)
               else 0)) /\
    StronglySorted Qlt (Dict.values m) /\
    (List.length codes = 1%nat -> Dict.values m = [0]) /\
    (List.length codes = 0%nat -> m = []).
Proof.
  intros band codes.
  assert (Hd : distinct_codes band codes).
  { split.
    - repeat constructor.
    - intros q. rewrite valid_code_compressed. subst band codes.
      cbn [flatten List.concat app compressed].
      rewrite !InQ_cons. pose proof (InQ_nil q). tauto. }
  split; [exact Hd | exact (mapping_evenly_spaced band codes Hd)].
Defined.

End MappingFacts.

(* ===================================================================== *)
(** * Properties of [np.around] and of [_ClassNormalize.__call__] *)
(* ===================================================================== *)

Module NormalizeFacts.

Import Np Exn Spec NpFacts DictFacts MappingFacts.
Local Open Scope Q_scope.

(** *** Rounding *)

(** [round_half_even] is rounding to a nearest integer, and on a tie the
    chosen integer is even. *)
Lemma round_half_even_nearest x :
  Qabs (x - inject_Z (round_half_even x)) <= 1 # 2 /\
  (Qabs (x - inject_Z (round_half_even x)) == 1 # 2 ->
   Z.even (round_half_even x) = true).
Proof.
  unfold round_half_even.
  pose proof (Qfloor_le x) as Hlo. pose proof (Qlt_floor x) as Hhi.
  rewrite inject_Z_plus in Hhi. change (inject_Z 1) with 1 in Hhi.
  set (f := Qfloor x) in *.
  destruct (Qcompare (x - inject_Z f) (1 # 2)) eqn:C.
  - apply Qeq_alt in C.
    destruct (Z.even f) eqn:Ev.
    + split; [| intros _; exact Ev].
      apply Qabs_case; intros; lra.
    + rewrite inject_Z_plus. change (inject_Z 1) with 1.
      split.
      * apply Qabs_case; intros; lra.
      * intros _. change (f + 1)%Z with (Z.succ f).
        rewrite Z.even_succ, <- Z.negb_even, Ev. reflexivity.
  - apply Qlt_alt in C. split.
    + apply Qabs_case; intros; lra.
    + apply Qabs_case; intros; exfalso; lra.
  - apply Qgt_alt in C. rewrite inject_Z_plus. change (inject_Z 1) with 1.
    split.
    + apply Qabs_case; intros; lra.
    + apply Qabs_case; intros; exfalso; lra.
Qed.

Lemma round_half_even_integer z : round_half_even (inject_Z z) = z.
Proof.
  unfold round_half_even. rewrite Qfloor_Z.
  replace (Qcompare (inject_Z z - inject_Z z) (1 # 2)) with Lt;
    [reflexivity |].
  symmetry. apply Qlt_alt. unfold Qminus. rewrite Qplus_opp_r.
  reflexivity.
Qed.

Lemma around_elem_idempotent a : around_elem (around_elem a) = around_elem a.
Proof.
  destruct a as [x |]; simpl; [| reflexivity].
  rewrite round_half_even_integer. reflexivity.
Qed.

(** *** The assignment loop, cell by cell *)

Lemma map2_map_l {A B : Type} (f : B -> A -> B) (g : A -> B) l :
  map2 f (map g l) l = map (fun a => f (g a) a) l.
Proof.
  induction l as [| a l IH]; simpl; [| rewrite IH]; reflexivity.
Qed.

Lemma setitem_where_eq_map (g : elem -> elem) arry k v :
  setitem_where_eq (map (map g) arry) arry k v
  = map (map (fun a => if eq_elem a k then Val v else g a)) arry.
Proof.
  unfold setitem_where_eq.
  induction arry as [| row arry IH]; simpl; [reflexivity |].
  rewrite IH, map2_map_l. reflexivity.
Qed.

Lemma assignment_loop dt mapping arry : forall g : elem -> elem,
  fold_left
    (fun new_arry kv =>
       setitem_where_eq new_arry arry (fst kv) (stored dt (snd kv)))
    mapping (map (map g) arry)
  = map (map (fun a => assign_cell dt mapping a (g a))) arry.
Proof.
  induction mapping as [| [k v] mapping IH]; intros g; simpl.
  - reflexivity.
  - rewrite setitem_where_eq_map, IH. reflexivity.
Qed.

(** [__call__] never raises; each cell of the result is the rounded
    cell, overwritten by the items of the mapping whose key equals it. *)
Lemma call_spec dt mapping arry :
  ClassNormalize.__call__ dt mapping arry
  = inr (map (map (fun x => assign_cell dt mapping (around_elem x)
                                         (around_elem x))) arry).
Proof.
  assert (E : map (map id) (around arry) = around arry).
  { rewrite (map_ext (map id) id) by (intros row; apply map_id).
    apply map_id. }
  pose proof (assignment_loop dt mapping (around arry) id) as L.
  rewrite E in L.
  unfold ClassNormalize.__call__, Dict.items. cbv zeta. rewrite L.
  unfold around, id. rewrite map_map.
  change (@ret (sum exn) _ ndarray) with (@inr exn ndarray). f_equal.
  apply map_ext. intros row. rewrite map_map. reflexivity.
Qed.

Lemma assign_cell_masked dt mapping n :
  assign_cell dt mapping masked n = n.
Proof.
  unfold assign_cell. revert n.
  induction mapping as [| kv mapping IH]; intros n; simpl;
    [reflexivity | apply IH].
Qed.

(** A cell is left alone when no key equals it, and otherwise holds the
    position of a key that equals it. *)
Lemma assign_cell_cases dt mapping a : forall n,
  (assign_cell dt mapping a n = n /\
   forall k v, In (k, v) mapping -> eq_elem a k = false) \/
  (exists k v, In (k, v) mapping /\ eq_elem a k = true /\
               assign_cell dt mapping a n = Val (stored dt v)).
Proof.
  unfold assign_cell.
  induction mapping as [| [k v] mapping IH]; intros n; simpl.
  - left. split; [reflexivity | intros ? ? []].
  - destruct (IH (if eq_elem a k then Val (stored dt v) else n))
      as [[Heq Hno] | [k' [v' [Hin [Hk' Heq]]]]].
    + destruct (eq_elem a k) eqn:E.
      * right. exists k, v. split; [left; reflexivity |].
        split; [exact E | exact Heq].
      * left. split; [exact Heq |].
        intros k0 v0 [H0 | H0]; [congruence | eapply Hno; exact H0].
    + right. exists k', v'. split; [right; exact Hin |].
      split; assumption.
Qed.

Lemma Forall2_map_self {A B : Type} (R : A -> B -> Prop) (f : A -> B) l :
  (forall a, R a (f a)) -> Forall2 R l (map f l).
Proof.
  intros H. induction l as [| a l IH]; simpl; constructor; auto.
Qed.

Lemma is_key_false_iff {V : Type} (mapping : Dict.dict V) x :
  ~ is_key mapping x <->
  forall k v, In (k, v) mapping -> eq_elem (Val x) k = false.
Proof.
  unfold is_key. split.
  - intros Hno k v Hin. destruct (eq_elem (Val x) k) eqn:E; [| reflexivity].
    exfalso. apply Hno. exists k, v. split; assumption.
  - intros Hall [k [v [Hin Hk]]]. rewrite (Hall k v Hin) in Hk. discriminate.
Qed.

(** The result of [__call__], cell by cell: a masked cell stays masked; a
    number is rounded and then replaced by the position, as an array of
    kind [dt] stores it, of a key equal to the rounded number, or kept
    (rounded) when there is no such key. *)
Lemma call_cells dt mapping arry :
  exists out,
    ClassNormalize.__call__ dt mapping arry = inr out /\
    Forall2 (Forall2 (fun a o =>
      match a with
      | masked => o = masked
      | Val x =>
          let r := inject_Z (round_half_even x) in
          (~ is_key mapping r /\ o = Val r) \/
          (exists k v, In (k, v) mapping /\ eq_elem (Val r) k = true /\
                       o = Val (stored dt v))
      end)) arry out.
Proof.
  eexists. split; [apply call_spec |].
  apply Forall2_map_self. intros row.
  apply Forall2_map_self. intros [x |]; simpl.
  - destruct (assign_cell_cases dt mapping
                                (Val (inject_Z (round_half_even x)))
                                (Val (inject_Z (round_half_even x))))
      as [[Heq Hno] | Hyes].
    + left. split; [apply is_key_false_iff; exact Hno | exact Heq].
    + right. exact Hyes.
  - apply assign_cell_masked.
Qed.

Lemma keep_changes_In x l : forall prev,
  In x (keep_changes prev l) -> In x l.
Proof.
  induction l as [| y l IH]; intros prev; simpl; [tauto |].
  destruct (Qeq_bool y prev); simpl; intros H.
  - right. eapply IH. exact H.
  - destruct H as [H | H]; [left; exact H | right; eapply IH; exact H].
Qed.

Lemma unique_numbers_In band x :
  In x (unique_numbers band) -> In (Val x) (flatten band).
Proof.
  unfold unique_numbers. intros H. apply compressed_In.
  eapply Permutation_in; [apply Permutation_sym, sort_perm |].
  destruct (sort (compressed (flatten band))) as [| y l]; [exact H |].
  simpl in H. destruct H as [H | H]; [left; exact H |].
  right. eapply keep_changes_In. exact H.
Qed.

(** The keys of the mapping are the numbers [np.unique] found. *)
Lemma init_keys band :
  exists m, ClassNormalize.__init__ band = inr m /\
            Dict.keys m = map Val (unique_numbers band).
Proof.
  eexists. split; [apply init_spec |].
  unfold Dict.keys. apply map_fst_combine.
  rewrite length_map, ticks_length. reflexivity.
Qed.



(** C2, as stated, fails: the band [[7]] holds a value that is not a key
    of the mapping {0: 0}, and [__call__] returns [[7]] and raises
    nothing; an empty band raises nothing either, in [__init__] or in
    [__call__]. *)
Lemma call_returns_on_unmapped_value :
  let mapping := [(Val 0, 0)] in
  let band := [[Val 7]] in
  In (Val 7) (flatten band) /\
  Dict.get mapping (Val 7) = None /\
  (forall dt, ClassNormalize.__call__ dt mapping band = inr [[Val 7]]) /\
  (forall dt e, ClassNormalize.__call__ dt mapping band <> inl e) /\
  ClassNormalize.__init__ [] = inr [] /\
  (forall dt, ClassNormalize.__call__ dt [] [] = inr []).
Proof.
  cbv zeta. split; [left; reflexivity |].
  split; [reflexivity |].
  split; [intros [|]; reflexivity |].
  split; [intros dt e H; discriminate H |].
  split; [reflexivity | intros [|]; reflexivity].
Qed.

(** C2, amended. [__init__] and [__call__] raise on no input, the empty
    band included: [__call__] returns an array of the shape of its
    argument, and a valid entry whose rounded value is not a key of the
    mapping comes out as that rounded value. *)
Theorem call_total_passes_unmapped
        (dt : dtype) (mapping : Dict.dict Q) (arry : ndarray) :
  (exists m, ClassNormalize.__init__ arry = inr m) /\
  ClassNormalize.__init__ [] = inr [] /\
  ClassNormalize.__call__ dt mapping [] = inr [] /\
  exists out,
    ClassNormalize.__call__ dt mapping arry = inr out /\
    Forall2 (Forall2 (fun a o =>
      forall x, a = Val x ->
                ~ is_key mapping (inject_Z (round_half_even x)) ->
                o = Val (inject_Z (round_half_even x)))) arry out.
Proof.
  split; [eexists; apply init_spec |].
  split; [reflexivity |].
  split; [rewrite call_spec; reflexivity |].
  destruct (call_cells dt mapping arry) as [out [Hout Hcells]].
  exists out. split; [exact Hout |].
  eapply Forall2_impl; [| exact Hcells].
  intros row orow Hrow. eapply Forall2_impl; [| exact Hrow].
  intros a o Hao x -> Hno. simpl in Hao.
  destruct Hao as [[_ Ho] | [k [v [Hin [Hk _]]]]]; [exact Ho |].
  exfalso. apply Hno. exists k, v. split; assumption.
Qed.

(** C3, as stated, fails: 4/5 and 6/5 both round to 1, yet the mapping
    built from the band [[4/5, 6/5]] has the two unrounded keys 4/5 and
    6/5, in two classes. *)
Lemma init_keeps_unrounded_classes :
  let band := [[Val (4 # 5); Val (6 # 5)]] in
  round_half_even (4 # 5) = 1%Z /\
  round_half_even (6 # 5) = 1%Z /\
  ClassNormalize.__init__ band
  = inr [(Val (4 # 5), 0); (Val (6 # 5), 1)].
Proof.
  cbv zeta. repeat split; vm_compute; reflexivity.
Qed.

(** C3, amended. [__init__] does not round: every key of the mapping is
    an entry of the band as it stands, the keys are exactly the valid
    values of the band and are pairwise different numbers, so two raw
    values share a class only when they are equal. Rounding to the
    nearest integer, ties to the even one, is done by [__call__], on the
    array it is given, before the comparison with the keys. *)
Theorem mapping_keys_unrounded (band : ndarray) :
  (exists m,
     ClassNormalize.__init__ band = inr m /\
     (forall k, In k (Dict.keys m) ->
                exists x, k = Val x /\ In (Val x) (flatten band)) /\
     (forall q, valid_code band q <->
                exists k, In (Val k) (Dict.keys m) /\ k == q) /\
     distinct_keys (Dict.keys m)) /\
  (forall dt mapping,
     ClassNormalize.__call__ dt mapping band
     = ClassNormalize.__call__ dt mapping (around band)) /\
  (forall x,
     Qabs (x - inject_Z (round_half_even x)) <= 1 # 2 /\
     (Qabs (x - inject_Z (round_half_even x)) == 1 # 2 ->
      Z.even (round_half_even x) = true)).
Proof.
  split; [| split].
  - destruct (init_keys band) as [m [Hm Hkeys]].
    exists m. split; [exact Hm |]. rewrite Hkeys.
    split; [| split].
    + intros k Hk. apply in_map_iff in Hk. destruct Hk as [x [<- Hx]].
      exists x. split; [reflexivity | apply unique_numbers_In; exact Hx].
    + intros q. destruct (unique_numbers_distinct band) as [_ Hin].
      rewrite Hin, InQ_In. split; intros [k [Hk Hq]]; exists k;
        (split; [| exact Hq]).
      * apply in_map. exact Hk.
      * apply in_map_iff in Hk. destruct Hk as [k' [E Hk']].
        injection E as ->. exact Hk'.
    + apply ascending_distinct_keys. apply unique_numbers_distinct.
  - intros dt mapping. rewrite !call_spec. f_equal.
    unfold around. rewrite map_map. apply map_ext. intros row.
    rewrite map_map. apply map_ext. intros a.
    rewrite around_elem_idempotent. reflexivity.
  - apply round_half_even_nearest.
Qed.



End NormalizeFacts.

(* ===================================================================== *)
(** * Properties of the legend and of [visualize_udm2] *)
(* ===================================================================== *)

Module PlotFacts.

Import Np Exn Spec NpFacts DictFacts MappingFacts NormalizeFacts Plot.
Local Open Scope Q_scope.
Local Open Scope string_scope.

Section Legend.

Context {L : Type}.
Variable mapping : Dict.dict Q.
Variable cmap : string.

Lemma colors_all_present ks :
  Forall (fun k => Dict.get mapping k <> None) ks ->
  exists colors,
    comprehension (color_of mapping cmap) ks = inr colors /\
    Forall2 (has_color mapping cmap) ks colors.
Proof.
  induction 1 as [| k ks Hk _ [colors [Hc Hcs]]]; simpl.
  - exists []. split; [reflexivity | constructor].
  - unfold color_of at 1. unfold getitem.
    destruct (Dict.get mapping k) as [x |] eqn:G; [| congruence].
    simpl. rewrite Hc. simpl.
    exists (cmap_at cmap x :: colors). split; [reflexivity |].
    constructor; [exists x; split; [exact G | reflexivity] | exact Hcs].
Qed.

Lemma colors_key_absent ks :
  Exists (fun k => Dict.get mapping k = None) ks ->
  exists k, In k ks /\ Dict.get mapping k = None /\
            comprehension (color_of mapping cmap) ks = inl (KeyError k).
Proof.
  induction ks as [| k ks IH]; intros Hex; [inversion Hex |].
  simpl. unfold color_of at 1. unfold getitem.
  destruct (Dict.get mapping k) as [x |] eqn:G.
  - assert (Hex' : Exists (fun k => Dict.get mapping k = None) ks)
      by (inversion Hex; subst; [congruence | assumption]).
    destruct (IH Hex') as [k' [Hin [Hk' Hc]]].
    exists k'. split; [right; exact Hin |]. split; [exact Hk' |].
    simpl. rewrite Hc. reflexivity.
  - exists k. split; [left; reflexivity |]. split; [exact G |].
    reflexivity.
Qed.

Lemma patches_of_colors (labels : Dict.dict L) : forall colors,
  Forall2 (has_color mapping cmap) (Dict.keys labels) colors ->
  Forall2 (fun kl p => has_color mapping cmap (fst kl) (color p) /\
                       label p = snd kl)
          labels
          (map (fun cl => mkPatch (fst cl) (snd cl))
               (combine colors (Dict.values labels))).
Proof.
  induction labels as [| [k l] labels IH]; intros colors H;
    inversion H as [| ? c ? colors' Hc Hcs]; subst; simpl.
  - constructor.
  - constructor; [split; [exact Hc | reflexivity] | apply IH; exact Hcs].
Qed.

(** The [try] block on a dictionary of labels: a patch per label when
    every key is in the mapping, [KeyError] otherwise. *)
Lemma legend_patches_labels (labels : Dict.dict L) :
  (Forall (fun k => Dict.get mapping k <> None) (Dict.keys labels) ->
   exists patches,
     legend_patches mapping (Some labels) cmap = inr patches /\
     Forall2 (fun kl p => has_color mapping cmap (fst kl) (color p) /\
                       label p = snd kl)
             labels patches) /\
  (Exists (fun k => Dict.get mapping k = None) (Dict.keys labels) ->
   exists k, In k (Dict.keys labels) /\ Dict.get mapping k = None /\
             legend_patches mapping (Some labels) cmap = inl (KeyError k)).
Proof.
  unfold legend_patches. simpl. split; intros H.
  - destruct (colors_all_present _ H) as [colors [Hc Hcs]].
    rewrite Hc. eexists. split; [reflexivity |].
    apply patches_of_colors. exact Hcs.
  - destruct (colors_key_absent _ H) as [k [Hin [Hk Hc]]].
    rewrite Hc. exists k. repeat split; assumption.
Qed.

End Legend.

(** [imshow_class_band] draws the normalized image, then the legend the
    [try] block built; [AttributeError] is the only exception it handles. *)
Lemma imshow_class_band_spec {L : Type} (ax : Axes L) class_band
      (class_labels : option (Dict.dict L)) cmap :
  exists mapping im,
    ClassNormalize.__init__ class_band = inr mapping /\
    ClassNormalize.__call__ floating mapping class_band = inr im /\
    Dict.keys mapping = map Val (unique_numbers class_band) /\
    imshow_class_band ax class_band class_labels cmap
    = match legend_patches mapping class_labels cmap with
      | inr patches => inr (set_legend (set_image ax im) patches)
      | inl AttributeError => inr (set_image ax im)
      | inl e => inl e
      end.
Proof.
  destruct (init_keys class_band) as [mapping [Hm Hkeys]].
  exists mapping. eexists.
  split; [exact Hm |]. split; [apply call_spec |]. split; [exact Hkeys |].
  unfold imshow_class_band. rewrite Hm. cbn [bind Monad_either].
  rewrite call_spec. cbn [bind Monad_either ret catch Exception_either].
  destruct (legend_patches mapping class_labels cmap)
    as [[| k | |] | patches]; reflexivity.
Qed.

(** C5, as stated, fails: with the labels {0: "unmasked", 1: "masked"} and
    a band that holds only 0, the key 1 is absent from the mapping and is
    not skipped: the subscript raises [KeyError], which
    [imshow_class_band] does not handle. *)
Lemma legend_absent_key_raises :
  let class_band := [[Val 0; Val 0]] in
  let class_labels := Some [(Val 0, "unmasked"); (Val 1, "masked")] in
  ClassNormalize.__init__ class_band = inr [(Val 0, 0)] /\
  Dict.get [(Val 0, 0)] (Val 1) = None /\
  legend_patches [(Val 0, 0)] class_labels "viridis"
  = inl (KeyError (Val 1)) /\
  imshow_class_band new_axes class_band class_labels "viridis"
  = inl (KeyError (Val 1)).
Proof.
  cbv zeta. repeat split; vm_compute; reflexivity.
Qed.

(** C5, amended. With no labels ([None]) the [try] block raises
    [AttributeError], which is handled: the image is drawn and the legend
    is left as it was. With labels whose keys are all keys of the mapping,
    the legend holds, for each key in the order of the labels, the patch
    of the colour of its mapped position and of its label. With labels
    that have a key absent from the mapping, no key is skipped:
    [KeyError] on such a key comes out of [imshow_class_band]. *)
Theorem legend_entries_of_labels {L : Type} (ax : Axes L)
        (class_band : ndarray) (class_labels : option (Dict.dict L))
        (cmap : string) :
  exists mapping im,
    ClassNormalize.__init__ class_band = inr mapping /\
    ClassNormalize.__call__ floating mapping class_band = inr im /\
    match class_labels with
    | None =>
        legend_patches mapping class_labels cmap = inl AttributeError /\
        imshow_class_band ax class_band class_labels cmap
        = inr (set_image ax im)
    | Some labels =>
        (Forall (fun k => Dict.get mapping k <> None) (Dict.keys labels) ->
         exists patches,
           imshow_class_band ax class_band class_labels cmap
           = inr (set_legend (set_image ax im) patches) /\
           Forall2 (fun kl p => has_color mapping cmap (fst kl) (color p) /\
                                label p = snd kl)
                   labels patches) /\
        (Exists (fun k => Dict.get mapping k = None) (Dict.keys labels) ->
         exists k,
           In k (Dict.keys labels) /\ Dict.get mapping k = None /\
           imshow_class_band ax class_band class_labels cmap
           = inl (KeyError k))
    end.
Proof.
  destruct (imshow_class_band_spec ax class_band class_labels cmap)
    as [mapping [im [Hm [Him [_ Hshow]]]]].
  exists mapping, im. split; [exact Hm |]. split; [exact Him |].
  destruct class_labels as [labels |].
  - destruct (legend_patches_labels mapping cmap labels) as [Hok Hko].
    split.
    + intros Hall. destruct (Hok Hall) as [patches [Hp Hcells]].
      exists patches. split; [| exact Hcells].
      rewrite Hshow, Hp. reflexivity.
    + intros Hex. destruct (Hko Hex) as [k [Hin [Hk Hp]]].
      exists k. split; [exact Hin |]. split; [exact Hk |].
      rewrite Hshow, Hp. reflexivity.
  - split; [reflexivity |]. rewrite Hshow. reflexivity.
Qed.

(** *** The loop of [visualize_udm2] *)

Lemma loop_class_labels_unmasked band :
  unmasked band ->
  loop_class_labels band
  = if (List.length (unique_numbers band) <? 5)%nat
    then Some (map (fun v => (v, v)) (map Val (unique_numbers band)))
    else None.
Proof.
  intros Hu. unfold loop_class_labels. rewrite (unique_unmasked band Hu).
  cbv zeta. rewrite length_map.
  destruct (List.length (unique_numbers band) <? 5)%nat; [| reflexivity].
  f_equal. apply of_pairs_distinct.
  rewrite map_map. cbn [fst]. rewrite map_id.
  apply ascending_distinct_keys. apply unique_numbers_distinct.
Qed.

Lemma mapping_has_own_keys (mapping : Dict.dict Q) ks :
  Dict.keys mapping = ks ->
  Forall (fun k => Dict.get mapping k <> None) ks.
Proof.
  intros <-. apply Forall_forall. intros k Hk Hnone.
  destruct (get_key_present mapping k k Hk (key_eqb_refl k)) as [v Hv].
  congruence.
Qed.

(** One turn of the loop on a 2-D band without masked places. *)
Lemma visualize_udm2_band_unmasked ax band label :
  unmasked band ->
  exists ax',
    visualize_udm2_band ax 2 band label = inr ax' /\
    ((List.length (unique_numbers band) < 5)%nat ->
     exists patches,
       legend ax' = Some patches /\
       List.length patches = List.length (unique_numbers band)) /\
    ((5 <= List.length (unique_numbers band))%nat -> legend ax' = legend ax).
Proof.
  intros Hu. unfold visualize_udm2_band. cbv zeta. cbn [Nat.eqb].
  destruct (imshow_class_band_spec ax band (loop_class_labels band) "Greys_r")
    as [mapping [im [_ [_ [Hkeys Hshow]]]]].
  rewrite Hshow, (loop_class_labels_unmasked band Hu).
  destruct (Nat.ltb_spec (List.length (unique_numbers band)) 5) as [Hlt | Hge].
  - set (labels := map (fun v => (v, v)) (map Val (unique_numbers band))).
    assert (Hlk : Dict.keys labels = map Val (unique_numbers band)).
    { unfold labels, Dict.keys. rewrite map_map. cbn [fst]. apply map_id. }
    destruct (legend_patches_labels mapping "Greys_r" labels) as [Hok _].
    rewrite Hlk in Hok.
    destruct (Hok (mapping_has_own_keys mapping _ Hkeys))
      as [patches [Hp Hcells]].
    match goal with
    | |- context [legend_patches ?m ?l ?c] =>
        replace (legend_patches m l c) with (@inr exn _ patches)
          by (symmetry; exact Hp)
    end.
    cbn [bind Monad_either ret].
    eexists. split; [reflexivity |]. split; [| lia].
    intros _. exists patches. split; [reflexivity |].
    rewrite <- (Forall2_length Hcells). unfold labels.
    rewrite !length_map. reflexivity.
  - cbn. eexists. split; [reflexivity |]. split; [lia |].
    intros _. reflexivity.
Qed.

Lemma comprehension_all {A B : Type} (f : A -> result B) l :
  Forall (fun a => exists b, f a = inr b) l ->
  exists bs, comprehension f l = inr bs /\
             Forall2 (fun a b => f a = inr b) l bs.
Proof.
  induction 1 as [| a l [b Hb] _ [bs [Hbs Hall]]]; simpl.
  - exists []. split; [reflexivity | constructor].
  - rewrite Hb. cbn [bind Monad_either]. rewrite Hbs.
    exists (b :: bs). split; [reflexivity |].
    constructor; assumption.
Qed.

Lemma Forall2_nth_error {A B : Type} (R : A -> B -> Prop) l1 l2 :
  Forall2 R l1 l2 ->
  forall i a, nth_error l1 i = Some a ->
              exists b, nth_error l2 i = Some b /\ R a b.
Proof.
  induction 1 as [| a0 b0 l1 l2 H0 _ IH]; intros [| i] a Hi; simpl in *;
    try discriminate.
  - injection Hi as <-. exists b0. split; [reflexivity | exact H0].
  - apply IH. exact Hi.
Qed.


(** The pieces [np.squeeze] leaves 2-D: at least two rows and two
    columns. *)
Lemma squeezed_ndim_two a :
  (2 <= n_rows a)%nat -> (2 <= n_cols a)%nat -> squeezed_ndim a = 2%nat.
Proof.
  intros Hr Hc. unfold squeezed_ndim.
  destruct (Nat.eqb_spec (n_rows a) 1); [lia |].
  destruct (Nat.eqb_spec (n_cols a) 1); [lia |]. reflexivity.
Qed.

Lemma squeezed_ndim_flat a :
  n_rows a = 1%nat \/ n_cols a = 1%nat ->
  (squeezed_ndim a =? 2)%nat = false.
Proof.
  intros H. unfold squeezed_ndim.
  destruct (Nat.eqb_spec (n_rows a) 1), (Nat.eqb_spec (n_cols a) 1);
    try reflexivity.
  exfalso. destruct H; contradiction.
Qed.

(** With at least one band [np.split] succeeds and the loop runs. *)
Lemma visualize_udm2_loop a :
  pieces a <> [] ->
  visualize_udm2 a
  = comprehension
      (fun bal => visualize_udm2_band (snd (fst bal)) (squeezed_ndim a)
                                      (fst (fst bal)) (snd bal))
      (combine (combine (pieces a) (repeat new_axes 8)) udm2_labels).
Proof.
  intros Hne. unfold visualize_udm2.
  destruct (pieces a) as [| b bs]; [contradiction |]. reflexivity.
Qed.

(** Bands of one row or of one column are squeezed to fewer than two
    axes, and the first turn of the loop stops with [TypeError]. *)
Lemma visualize_udm2_flat a :
  pieces a <> [] ->
  n_rows a = 1%nat \/ n_cols a = 1%nat ->
  visualize_udm2 a = inl TypeError.
Proof.
  intros Hne Hflat. rewrite (visualize_udm2_loop a Hne).
  destruct (pieces a) as [| b bs]; [contradiction |].
  cbn [repeat combine udm2_labels comprehension fst snd].
  unfold visualize_udm2_band. rewrite (squeezed_ndim_flat a Hflat).
  reflexivity.
Qed.

(** The loop on 2-D bands without masked places draws every band. *)
Lemma visualize_udm2_drawn a :
  pieces a <> [] ->
  (2 <= n_rows a)%nat -> (2 <= n_cols a)%nat ->
  Forall unmasked (pieces a) ->
  exists axes,
    visualize_udm2 a = inr axes /\
    Forall2 (fun bal ax =>
               visualize_udm2_band (snd (fst bal)) 2 (fst (fst bal)) (snd bal)
               = inr ax)
            (combine (combine (pieces a) (repeat new_axes 8)) udm2_labels)
            axes.
Proof.
  intros Hne Hr Hc Hall. rewrite (visualize_udm2_loop a Hne).
  rewrite (squeezed_ndim_two a Hr Hc).
  apply comprehension_all.
  apply Forall_forall. intros [[b ax0] l] Hin.
  apply in_combine_l, in_combine_l in Hin.
  rewrite Forall_forall in Hall.
  destruct (visualize_udm2_band_unmasked ax0 b l (Hall b Hin))
    as [ax' [Hax' _]].
  exists ax'. exact Hax'.
Qed.



End PlotFacts.

(* ===================================================================== *)
(** * Further properties of the legacy mask decoder *)
(* ===================================================================== *)

Module UdmMore.

Import Py Udm UdmFacts.
Local Open Scope Z_scope.

Lemma bin_pos_leading_one p : exists s, bin_pos p = String "1"%char s.
Proof.
  induction p as [p [s Hs] | p [s Hs] |]; simpl.
  - rewrite Hs. eexists. reflexivity.
  - rewrite Hs. eexists. reflexivity.
  - eexists. reflexivity.
Qed.

Lemma zfill_head width s :
  (exists t, s = String "1"%char t) ->
  exists c t, zfill width s = String c t /\ (c = "0"%char \/ c = "1"%char).
Proof.
  intros [t ->]. unfold zfill.
  destruct (width - String.length (String "1" t))%nat; simpl.
  - exists "1"%char, t. split; [reflexivity | right; reflexivity].
  - eexists "0"%char, _. split; [reflexivity | left; reflexivity].
Qed.

(** The binary rendering starts with a digit or with the sign. *)
Lemma format_08b_head v :
  exists c t, format_08b v = String c t /\
              (c = "0"%char \/ c = "1"%char \/ c = "-"%char).
Proof.
  destruct v as [| p | p]; simpl.
  - eexists "0"%char, _. split; [reflexivity | left; reflexivity].
  - destruct (zfill_head 8 (bin_pos p) (bin_pos_leading_one p))
      as [c [t [E Hc]]].
    exists c, t. split; [exact E | tauto].
  - eexists "-"%char, _. split; [reflexivity | right; right; reflexivity].
Qed.

(** The join of recognized labels starts with the "c" of "cloud" or the
    "m" of "missing". *)
Lemma flag_labels_join_head v :
  flag_labels v <> [] ->
  exists c t, join " + " (flag_labels v) = String c t /\
              (c = "c"%char \/ c = "m"%char).
Proof.
  rewrite flag_labels_parts. unfold cloud_part, channel_part.
  destruct (Z.testbit v 1), (any_channel_bit v); intros Hne.
  - eexists "c"%char, _. split; [reflexivity | left; reflexivity].
  - eexists "c"%char, _. split; [reflexivity | left; reflexivity].
  - eexists "m"%char, _. split; [reflexivity | right; reflexivity].
  - exfalso. apply Hne. reflexivity.
Qed.

Lemma flag_labels_nil_iff v :
  flag_labels v = [] <-> Z.land v (int2 "11111110") = 0.
Proof.
  change (int2 "11111110") with (Z.lor (int2 "10") (int2 "11111100")).
  rewrite Z.land_lor_distr_r, Z.lor_eq_0_iff.
  unfold flag_labels, truthy.
  destruct (Z.eqb_spec (Z.land v (int2 "10")) 0) as [E1 | E1];
    destruct (Z.eqb_spec (Z.land v (int2 "11111100")) 0) as [E2 | E2];
    simpl; split; intros H; try discriminate; try tauto.
Qed.

(** The join of recognized labels starts with "cloud" or with
    "missing/suspect ". *)
Lemma flag_labels_join_prefix v :
  flag_labels v <> [] ->
  prefix "cloud" (join " + " (flag_labels v)) = true \/
  prefix "missing/suspect " (join " + " (flag_labels v)) = true.
Proof.
  rewrite flag_labels_parts. unfold cloud_part, channel_part.
  destruct (Z.testbit v 1), (any_channel_bit v); intros Hne.
  - left. reflexivity.
  - left. reflexivity.
  - right. generalize (join ", " (channel_names v) ++ " data")%string.
    intros s. destruct s; reflexivity.
  - exfalso. apply Hne. reflexivity.
Qed.

(** X1. For an integer other than 0 and 1, [get_label] returns the
    8-digit binary rendering exactly when none of bits 1 to 7 is set (256
    is the least such value); in every other case the result starts with
    a recognized label, "cloud" or "missing/suspect ". *)
Theorem get_label_fallback_iff (v : Z) :
  v <> 0 -> v <> 1 ->
  (get_label v = format_08b v <-> Z.land v (int2 "11111110") = 0) /\
  (Z.land v (int2 "11111110") <> 0 ->
   prefix "cloud" (get_label v) = true \/
   prefix "missing/suspect " (get_label v) = true).
Proof.
  intros H0 H1. unfold get_label.
  destruct (Z.eqb_spec v 0) as [? | _]; [contradiction |].
  destruct (Z.eqb_spec v 1) as [? | _]; [contradiction |].
  rewrite <- flag_labels_nil_iff. cbv zeta.
  pose proof (flag_labels_join_prefix v) as Hpre.
  pose proof (flag_labels_join_head v) as Hhead.
  destruct (flag_labels v) as [| l ls] eqn:E.
  - split; [simpl; tauto | intros Hne; contradiction].
  - cbn [List.length Nat.eqb].
    assert (Hne : l :: ls <> []) by discriminate.
    split; [| intros _; exact (Hpre Hne)].
    split; [| discriminate].
    intros Heq. exfalso.
    destruct (Hhead Hne) as [c [t [Hj Hc]]].
    destruct (format_08b_head v) as [c' [t' [Hf Hc']]].
    rewrite Hj, Hf in Heq. injection Heq as -> _.
    destruct Hc as [-> | ->]; destruct Hc' as [Hc' | [Hc' | Hc']];
      discriminate Hc'.
Qed.

Lemma get_label_fallback_iff_at_256 :
  (256 <> 0 /\ 256 <> 1) /\
  (get_label 256 = format_08b 256 <-> Z.land 256 (int2 "11111110") = 0) /\
  (Z.land 256 (int2 "11111110") <> 0 ->
   prefix "cloud" (get_label 256) = true \/
   prefix "missing/suspect " (get_label 256) = true).
Proof.
  split; [split; discriminate |].
  apply (get_label_fallback_iff 256); discriminate.
Defined.

Lemma get_label_halves v :
  2 <= v <= 255 -> get_label v = get_label (2 * (v / 2)).
Proof.
  intros Hv.
  assert (Hc : 2 <= 2 * (v / 2) <= 255).
  { pose proof (Z.div_mod v 2 ltac:(lia)) as Hdm.
    pose proof (Z.mod_pos_bound v 2 ltac:(lia)) as Hm. lia. }
  rewrite (get_label_flags v Hv), (get_label_flags _ Hc).
  rewrite <- clearbit0_double, flag_labels_clearbit0. reflexivity.
Qed.

(** X2. On bytes, two values get the same label exactly when they are
    equal or are both at least 2 and differ only in bit 0: apart from the
    ignored blackfill bit, the label determines the byte. *)
Theorem get_label_same_label (v w : Z) :
  0 <= v <= 255 -> 0 <= w <= 255 ->
  (get_label v = get_label w <->
   v = w \/ (2 <= v /\ 2 <= w /\ v / 2 = w / 2)).
Proof.
  intros Hv Hw. split.
  - intros Heq.
    assert (Hall :
      forallb (fun v =>
        forallb (fun w =>
          implb (String.eqb (get_label v) (get_label w))
                ((v =? w) || ((2 <=? v) && (2 <=? w) && (v / 2 =? w / 2))))
                (range_from 0 256))
              (range_from 0 256) = true) by (vm_compute; reflexivity).
    pose proof (range_from_forallb _ _ _ Hall v ltac:(lia)) as Hv'.
    cbv beta in Hv'.
    pose proof (range_from_forallb _ _ _ Hv' w ltac:(lia)) as Hvw.
    cbv beta in Hvw.
    rewrite Heq, String.eqb_refl in Hvw. simpl in Hvw.
    apply orb_true_iff in Hvw. destruct Hvw as [E | E].
    + left. apply Z.eqb_eq. exact E.
    + right. apply andb_true_iff in E. destruct E as [E E3].
      apply andb_true_iff in E. destruct E as [E1 E2].
      apply Z.leb_le in E1, E2. apply Z.eqb_eq in E3. tauto.
  - intros [-> | [Hv2 [Hw2 Hh]]]; [reflexivity |].
    rewrite (get_label_halves v), (get_label_halves w) by lia.
    rewrite Hh. reflexivity.
Qed.

Lemma get_label_same_label_at_6_7 :
  (0 <= 6 <= 255 /\ 0 <= 7 <= 255) /\
  (get_label 6 = get_label 7 <->
   6 = 7 \/ (2 <= 6 /\ 2 <= 7 /\ 6 / 2 = 7 / 2)).
Proof.
  split; [lia |]. apply (get_label_same_label 6 7); lia.
Defined.

End UdmMore.

(* ===================================================================== *)
(** * Further properties of the normalizer and of [visualize_udm2] *)
(* ===================================================================== *)

Module RenderMore.

Import Np Exn Spec NpFacts DictFacts MappingFacts NormalizeFacts Plot.
Import PlotFacts.
Local Open Scope Q_scope.

Lemma round_half_even_compat x y :
  x == y -> round_half_even x = round_half_even y.
Proof.
  intros E. unfold round_half_even.
  rewrite (Qfloor_comp _ _ E).
  assert (C : Qcompare (x - inject_Z (Qfloor y)) (1 # 2)
              = Qcompare (y - inject_Z (Qfloor y)) (1 # 2)).
  { apply Qcompare_comp; [| reflexivity].
    unfold Qminus. apply Qplus_comp; [exact E | reflexivity]. }
  rewrite C. reflexivity.
Qed.

Lemma round_half_even_of_integer x z :
  x == inject_Z z -> inject_Z (round_half_even x) == x.
Proof.
  intros E. rewrite (round_half_even_compat _ _ E).
  rewrite round_half_even_integer. symmetry. exact E.
Qed.

Lemma even_position_unit n i :
  (i < n)%nat -> 0 <= even_position n i <= 1.
Proof.
  intros Hi. unfold even_position.
  destruct (Nat.leb_spec 2 n) as [Hn | _]; [| split; discriminate].
  assert (Hd : 0 < inject_Z (Z.of_nat n - 1)).
  { change 0 with (inject_Z 0). rewrite <- Zlt_Qlt. lia. }
  split.
  - apply Qle_shift_div_l; [exact Hd |]. rewrite Qmult_0_l.
    change 0 with (inject_Z 0). rewrite <- Zle_Qle. lia.
  - apply Qle_shift_div_r; [exact Hd |]. rewrite Qmult_1_l.
    rewrite <- Zle_Qle. lia.
Qed.

Lemma In_combine_nth {A B : Type} (l1 : list A) (l2 : list B) a b d1 d2 :
  List.length l1 = List.length l2 ->
  In (a, b) (combine l1 l2) ->
  exists i, (i < List.length l1)%nat /\ nth i l1 d1 = a /\ nth i l2 d2 = b.
Proof.
  intros Hlen Hin.
  destruct (In_nth _ _ (d1, d2) Hin) as [i [Hi Hnth]].
  rewrite combine_nth in Hnth by exact Hlen.
  rewrite length_combine in Hi. injection Hnth as <- <-.
  exists i. split; [lia | split; reflexivity].
Qed.

Lemma Forall2_impl_In {A B : Type} (R R' : A -> B -> Prop) l l' :
  (forall a b, In a l -> R a b -> R' a b) ->
  Forall2 R l l' -> Forall2 R' l l'.
Proof.
  intros H F. induction F as [| a b l l' Hab _ IH]; constructor.
  - apply H; [left; reflexivity | exact Hab].
  - apply IH. intros a0 b0 Hin. apply H. right. exact Hin.
Qed.

(** The position of a class is 1 for the last of at least two classes
    and below 1 for every other class. *)
Lemma even_position_cases n i :
  (i < n)%nat ->
  if ((2 <=? n)%nat && (S i =? n)%nat)%bool
  then even_position n i == 1
  else 0 <= even_position n i /\ even_position n i < 1.
Proof.
  intros Hi. unfold even_position.
  destruct (Nat.leb_spec 2 n) as [Hn | _]; cbn [andb];
    [| split; [discriminate | reflexivity]].
  assert (Hd : 0 < inject_Z (Z.of_nat n - 1)).
  { change 0 with (inject_Z 0). rewrite <- Zlt_Qlt. lia. }
  destruct (Nat.eqb_spec (S i) n) as [E | N].
  - replace (Z.of_nat n - 1)%Z with (Z.of_nat i) in * by lia.
    unfold Qdiv. apply Qmult_inv_r. intros E0. rewrite E0 in Hd.
    discriminate Hd.
  - split.
    + apply Qle_shift_div_l; [exact Hd |]. rewrite Qmult_0_l.
      change 0 with (inject_Z 0). rewrite <- Zle_Qle. lia.
    + apply Qlt_shift_div_r; [exact Hd |]. rewrite Qmult_1_l.
      rewrite <- Zlt_Qlt. lia.
Qed.

Lemma truncate_unit v : 0 <= v -> v < 1 -> truncate v = 0%Z.
Proof.
  intros H0 H1. unfold truncate.
  rewrite (proj2 (Qle_bool_iff 0 v) H0).
  pose proof (Qfloor_resp_le _ _ H0) as Hlo.
  change (Qfloor 0) with 0%Z in Hlo.
  assert (Hhi : (Qfloor v < 1)%Z).
  { rewrite Zlt_Qlt. eapply Qle_lt_trans; [apply Qfloor_le | exact H1]. }
  lia.
Qed.

Lemma truncate_one v : v == 1 -> truncate v = 1%Z.
Proof.
  intros E. unfold truncate.
  assert (H0 : 0 <= v) by (rewrite E; discriminate).
  rewrite (proj2 (Qle_bool_iff 0 v) H0).
  rewrite (Qfloor_comp _ _ E). reflexivity.
Qed.

(** X3. Build the mapping from a band whose valid entries are integers
    and normalize that band with it: a masked entry stays masked, and a
    valid entry becomes a number of the unit interval decided by the rank
    [i] of its code among the [N] distinct codes. In an array of floats
    it is the position [i / (N - 1)] (0 when [N = 1]); in an array of
    integers the position is truncated as it is stored: 1 for the highest
    of at least two codes, 0 for every other code. *)
Theorem normalize_with_built_mapping
        (dt : dtype) (band : ndarray) (codes : list Q) :
  distinct_codes band codes ->
  (forall x, In (Val x) (flatten band) -> exists z, x == inject_Z z) ->
  exists mapping out,
    ClassNormalize.__init__ band = inr mapping /\
    ClassNormalize.__call__ dt mapping band = inr out /\
    Forall2 (Forall2 (fun a o =>
      match a with
      | masked => o = masked
      | Val x =>
          exists i p,
            (i < List.length codes)%nat /\
            nth i codes 0 == x /\
            o = Val p /\
            match dt with
            | floating => p == even_position (List.length codes) i
            | integer =>
                p == if ((2 <=? List.length codes)%nat
                         && (S i =? List.length codes)%nat)%bool
                     then 1 else 0
            end /\
            0 <= p <= 1
      end)) band out.
Proof.
  intros Hcodes Hint.
  pose proof (distinct_codes_unique band codes Hcodes) as HU.
  pose proof (Forall2_length HU) as Hlen.
  destruct (unique_numbers_distinct band) as [_ HinU].
  set (U := unique_numbers band) in *.
  set (m := combine (map Val U) (ticks (List.length U))).
  assert (HlenUT : List.length (map Val U)
                   = List.length (ticks (List.length U)))
    by (rewrite length_map, ticks_length; reflexivity).
  destruct (call_cells dt m band) as [out [Hout Hcells]].
  exists m, out. split; [apply init_spec |]. split; [exact Hout |].
  eapply Forall2_impl_In; [| exact Hcells].
  intros row orow Hrow Hro. eapply Forall2_impl_In; [| exact Hro].
  intros [x |] o Ha Hao; [| exact Hao].
  assert (Hx : In (Val x) (flatten band)).
  { unfold flatten. apply in_concat. exists row. split; assumption. }
  destruct (Hint x Hx) as [z Hz].
  pose proof (round_half_even_of_integer x z Hz) as Hr.
  cbv zeta in Hao.
  destruct Hao as [[Hno _] | [k [v [Hin [Hk Ho]]]]].
  - exfalso. apply Hno.
    assert (HxU : InQ x U).
    { apply HinU. exists x. split; [exact Hx | reflexivity]. }
    apply InQ_In in HxU. destruct HxU as [u [Hu Hux]].
    destruct (In_nth _ _ 0 Hu) as [i [Hi Hnth]].
    exists (Val u), (nth i (ticks (List.length U)) 0). split.
    + replace (Val u, nth i (ticks (List.length U)) 0)
        with (nth i m (Val 0, 0)).
      * apply nth_In. unfold m.
        rewrite length_combine, length_map, ticks_length. lia.
      * unfold m. rewrite combine_nth by exact HlenUT.
        rewrite (map_nth Val), Hnth. reflexivity.
    + simpl. apply Qeq_bool_iff. rewrite Hr, Hux. reflexivity.
  - destruct (In_combine_nth _ _ _ _ (Val 0) 0 HlenUT Hin)
      as [i [Hi [Hki Hvi]]].
    rewrite length_map in Hi.
    rewrite (map_nth Val) in Hki. subst k.
    rewrite ticks_nth in Hvi by exact Hi.
    simpl in Hk. apply Qeq_bool_iff in Hk.
    exists i, (stored dt v). split; [lia |].
    split.
    { rewrite <- Hr, Hk. symmetry. apply (Forall2_nth _ _ _ HU). exact Hi. }
    split; [exact Ho |].
    assert (Hv : v == even_position (List.length codes) i)
      by (rewrite <- Hvi, Qred_correct, Hlen; reflexivity).
    assert (Hic : (i < List.length codes)%nat) by lia.
    destruct dt; cbn [stored].
    + pose proof (even_position_cases _ _ Hic) as Hcase.
      destruct ((2 <=? List.length codes)%nat
                && (S i =? List.length codes)%nat)%bool.
      * rewrite (truncate_one v) by (rewrite Hv; exact Hcase).
        split; [reflexivity | split; discriminate].
      * destruct Hcase as [H0 H1].
        rewrite (truncate_unit v) by (rewrite Hv; assumption).
        split; [reflexivity | split; discriminate].
    + split; [exact Hv |].
      rewrite Hv. apply even_position_unit. exact Hic.
Qed.

Lemma normalize_with_built_mapping_example :
  let band := [[Val 3; masked; Val 9]; [Val 9; Val 6; Val 3]] in
  let codes := [3; 6; 9] in
  (distinct_codes band codes /\
   (forall x, In (Val x) (flatten band) -> exists z, x == inject_Z z)) /\
  exists mapping out,
    ClassNormalize.__init__ band = inr mapping /\
    ClassNormalize.__call__ integer mapping band = inr out /\
    Forall2 (Forall2 (fun a o =>
      match a with
      | masked => o = masked
      | Val x =>
          exists i p,
            (i < List.length codes)%nat /\
            nth i codes 0 == x /\
            o = Val p /\
            p == (if ((2 <=? List.length codes)%nat
                      && (S i =? List.length codes)%nat)%bool
                  then 1 else 0) /\
            0 <= p <= 1
      end)) band out.
Proof.
  intros band codes.
  assert (Hd : distinct_codes band codes).
  { split.
    - repeat constructor.
    - intros q. rewrite valid_code_compressed. subst band codes.
      cbn [flatten List.concat app compressed].
      rewrite !InQ_cons. pose proof (InQ_nil q). tauto. }
  assert (Hi : forall x, In (Val x) (flatten band) ->
                         exists z, x == inject_Z z).
  { intros x Hx. subst band. simpl in Hx.
    repeat (destruct Hx as [Hx | Hx];
            [try discriminate Hx; injection Hx as <-;
             eexists; reflexivity |]).
    contradiction. }
  split; [split; assumption |].
  exact (normalize_with_built_mapping integer band codes Hd Hi).
Defined.

(** What one turn of the loop of [visualize_udm2] leaves on its axes. *)
Lemma visualize_udm2_band_frame ax band label ax' :
  visualize_udm2_band ax 2 band label = inr ax' ->
  title ax' = Some label /\ axis_on ax' = false /\
  exists mapping im,
    ClassNormalize.__init__ band = inr mapping /\
    ClassNormalize.__call__ floating mapping band = inr im /\
    image ax' = Some im.
Proof.
  unfold visualize_udm2_band. cbv zeta. cbn [Nat.eqb].
  destruct (imshow_class_band_spec ax band (loop_class_labels band) "Greys_r")
    as [mapping [im [Hm [Him [_ Hshow]]]]].
  rewrite Hshow.
  destruct (legend_patches mapping (loop_class_labels band) "Greys_r")
    as [[| k | |] | patches]; cbn [bind Monad_either ret]; intros H;
    try discriminate H; injection H as <-;
    (split; [reflexivity |]; split; [reflexivity |];
     exists mapping, im; split; [exact Hm |]; split; [exact Him |];
     reflexivity).
Qed.

Lemma nth_error_combine_inv {A B : Type} (l1 : list A) :
  forall (l2 : list B) i a b,
    nth_error (combine l1 l2) i = Some (a, b) ->
    nth_error l1 i = Some a /\ nth_error l2 i = Some b.
Proof.
  induction l1 as [| a1 l1 IH]; intros [| b1 l2] [| i] a b H;
    simpl in *; try discriminate.
  - injection H as <- <-. split; reflexivity.
  - apply IH. exact H.
Qed.

(** X4. [visualize_udm2] on a 3-D array without masked places. With no
    band, [np.split] raises [ZeroDivisionError]. With bands of one row
    or of one column, [np.squeeze] leaves fewer than two axes and the
    first [ax.imshow] raises [TypeError]. With bands of at least two
    rows and two columns nothing is raised and [min(len(udm2), 8)] axes
    are drawn on, bands after the eighth being left out; the [i]-th axes
    shows the [i]-th band, normalized by the mapping built from that
    band, under the title [udm2_labels[i]], with its axis switched
    off. *)
Theorem visualize_udm2_axes (udm2 : array3) :
  shaped udm2 ->
  Forall unmasked (pieces udm2) ->
  (pieces udm2 = [] -> visualize_udm2 udm2 = inl ZeroDivisionError) /\
  (pieces udm2 <> [] ->
   n_rows udm2 = 1%nat \/ n_cols udm2 = 1%nat ->
   visualize_udm2 udm2 = inl TypeError) /\
  (pieces udm2 <> [] ->
   (2 <= n_rows udm2)%nat -> (2 <= n_cols udm2)%nat ->
   exists axes,
     visualize_udm2 udm2 = inr axes /\
     List.length axes = Nat.min (List.length (pieces udm2)) 8 /\
     forall i ax,
       nth_error axes i = Some ax ->
       title ax = Some (nth i udm2_labels ""%string) /\
       axis_on ax = false /\
       exists band mapping im,
         nth_error (pieces udm2) i = Some band /\
         ClassNormalize.__init__ band = inr mapping /\
         ClassNormalize.__call__ floating mapping band = inr im /\
         image ax = Some im).
Proof.
  intros _ Hall. split; [| split].
  - intros E. unfold visualize_udm2. rewrite E. reflexivity.
  - apply visualize_udm2_flat.
  - intros Hne Hr Hc.
    destruct (visualize_udm2_drawn udm2 Hne Hr Hc Hall)
      as [axes [Haxes Hcells]].
    exists axes. split; [exact Haxes |]. split.
    + rewrite <- (Forall2_length Hcells).
      rewrite !length_combine, repeat_length. simpl. lia.
    + intros i ax Hax.
      apply Forall2_flip in Hcells.
      destruct (Forall2_nth_error _ _ _ Hcells i ax Hax)
        as [[[band ax0] label] [Hbal Hbody]].
      apply nth_error_combine_inv in Hbal.
      destruct Hbal as [Hbal Hlabel].
      apply nth_error_combine_inv in Hbal. destruct Hbal as [Hband _].
      cbn [fst snd] in Hbody.
      destruct (visualize_udm2_band_frame _ _ _ _ Hbody)
        as [Ht [Hoff [mapping [im [Hm [Him Himg]]]]]].
      split.
      { rewrite Ht. f_equal. symmetry. apply nth_error_nth. exact Hlabel. }
      split; [exact Hoff |].
      exists band, mapping, im. repeat split; assumption.
Qed.

Lemma visualize_udm2_axes_example :
  let udm2 := mkArray3 (repeat [[Val 0; Val 1]; [Val 1; Val 1]] 9) 2 2 in
  (shaped udm2 /\ Forall unmasked (pieces udm2)) /\
  (pieces udm2 = [] -> visualize_udm2 udm2 = inl ZeroDivisionError) /\
  (pieces udm2 <> [] ->
   n_rows udm2 = 1%nat \/ n_cols udm2 = 1%nat ->
   visualize_udm2 udm2 = inl TypeError) /\
  (pieces udm2 <> [] ->
   (2 <= n_rows udm2)%nat -> (2 <= n_cols udm2)%nat ->
   exists axes,
     visualize_udm2 udm2 = inr axes /\
     List.length axes = Nat.min (List.length (pieces udm2)) 8 /\
     forall i ax,
       nth_error axes i = Some ax ->
       title ax = Some (nth i udm2_labels ""%string) /\
       axis_on ax = false /\
       exists band mapping im,
         nth_error (pieces udm2) i = Some band /\
         ClassNormalize.__init__ band = inr mapping /\
         ClassNormalize.__call__ floating mapping band = inr im /\
         image ax = Some im).
Proof.
  intros udm2.
  assert (H0 : shaped udm2).
  { subst udm2. unfold shaped. simpl. repeat constructor. }
  assert (H : Forall unmasked (pieces udm2)).
  { subst udm2. simpl.
    repeat constructor; unfold unmasked; simpl; intuition discriminate. }
  split; [split; assumption | exact (visualize_udm2_axes udm2 H0 H)].
Defined.

End RenderMore.

(* ===================================================================== *)
(** * Properties of plain integer arrays *)
(* ===================================================================== *)

Module NpIntFacts.

Import Np NpInt Spec NpFacts MappingFacts.
Local Open Scope Z_scope.

Lemma Qle_bool_inject x y : Qle_bool (inject_Z x) (inject_Z y) = (x <=? y).
Proof. unfold Qle_bool. simpl. rewrite !Z.mul_1_r. reflexivity. Qed.

Lemma Qeq_bool_inject x y : Qeq_bool (inject_Z x) (inject_Z y) = (x =? y).
Proof. unfold Qeq_bool. simpl. rewrite !Z.mul_1_r. reflexivity. Qed.

Lemma insert_sorted_inject x l :
  Np.insert_sorted (inject_Z x) (map inject_Z l)
  = map inject_Z (insert_sorted x l).
Proof.
  induction l as [| y l IH]; simpl; [reflexivity |].
  rewrite Qle_bool_inject. destruct (x <=? y); simpl; [reflexivity |].
  rewrite IH. reflexivity.
Qed.

Lemma sort_inject l : Np.sort (map inject_Z l) = map inject_Z (sort l).
Proof.
  induction l as [| x l IH]; simpl; [reflexivity |].
  rewrite IH. apply insert_sorted_inject.
Qed.

Lemma keep_changes_inject l : forall prev,
  Np.keep_changes (inject_Z prev) (map inject_Z l)
  = map inject_Z (keep_changes prev l).
Proof.
  induction l as [| y l IH]; intros prev; simpl; [reflexivity |].
  rewrite Qeq_bool_inject, IH. destruct (y =? prev); reflexivity.
Qed.

Lemma unique1d_inject l :
  Np.unique1d (map inject_Z l) = map inject_Z (unique1d l).
Proof.
  destruct l as [| x l]; simpl; [reflexivity |].
  rewrite keep_changes_inject. reflexivity.
Qed.

Lemma flatten_as_ndarray a :
  flatten (as_ndarray a) = map (fun z => Val (inject_Z z)) (List.concat a).
Proof.
  unfold flatten, as_ndarray. symmetry. apply concat_map.
Qed.

Lemma compressed_map_Val l :
  compressed (map (fun z => Val (inject_Z z)) l) = map inject_Z l.
Proof.
  induction l as [| z l IH]; simpl; [| rewrite IH]; reflexivity.
Qed.

Lemma as_ndarray_unmasked a : unmasked (as_ndarray a).
Proof.
  unfold unmasked. rewrite flatten_as_ndarray. intros Hin.
  apply in_map_iff in Hin. destruct Hin as [z [E _]]. discriminate E.
Qed.

(** [np.unique] finds on the array of numbers what it finds on the array
    of integers. *)
Lemma unique_numbers_as_ndarray a :
  unique_numbers (as_ndarray a) = map inject_Z (unique a).
Proof.
  unfold unique_numbers, unique.
  rewrite flatten_as_ndarray, compressed_map_Val, sort_inject.
  apply unique1d_inject.
Qed.

Lemma unique_as_ndarray a :
  Np.unique (as_ndarray a) = map (fun z => Val (inject_Z z)) (unique a).
Proof.
  rewrite (unique_unmasked _ (as_ndarray_unmasked a)).
  rewrite unique_numbers_as_ndarray, map_map. reflexivity.
Qed.

Lemma ascending_inject l :
  StronglySorted Qlt (map inject_Z l) -> StronglySorted Z.lt l.
Proof.
  induction l as [| x l IH]; simpl; intros H; [constructor |].
  inversion H as [| ? ? Hs Hall]; subst. constructor; [apply IH; exact Hs |].
  rewrite Forall_map in Hall. eapply Forall_impl; [| exact Hall].
  intros y Hy. cbv beta in Hy. rewrite <- Zlt_Qlt in Hy. exact Hy.
Qed.

Lemma unique_ascending a : StronglySorted Z.lt (unique a).
Proof.
  apply ascending_inject. rewrite <- unique_numbers_as_ndarray.
  apply unique_numbers_distinct.
Qed.

(** The values [np.unique] returns are the values of the array. *)
Lemma unique_In a v : In v (unique a) <-> In v (List.concat a).
Proof.
  destruct (unique_numbers_distinct (as_ndarray a)) as [_ Hin].
  specialize (Hin (inject_Z v)).
  rewrite unique_numbers_as_ndarray, InQ_In in Hin.
  unfold valid_code in Hin. rewrite flatten_as_ndarray in Hin.
  split; intros H.
  - assert (Hex : exists x, In x (map inject_Z (unique a)) /\
                            (x == inject_Z v)%Q)
      by (exists (inject_Z v); split; [apply in_map; exact H | reflexivity]).
    apply Hin in Hex. destruct Hex as [x [Hx Hxv]].
    apply in_map_iff in Hx. destruct Hx as [z [E Hz]].
    injection E as <-.
    apply (proj1 (inject_Z_injective _ _)) in Hxv. subst z. exact Hz.
  - assert (Hex : exists x,
               In (Val x) (map (fun z => Val (inject_Z z)) (List.concat a)) /\
               (x == inject_Z v)%Q).
    { exists (inject_Z v). split; [| reflexivity].
      apply (in_map (fun z => Val (inject_Z z))). exact H. }
    apply Hin in Hex. destruct Hex as [x [Hx Hxv]].
    apply in_map_iff in Hx. destruct Hx as [z [<- Hz]].
    apply (proj1 (inject_Z_injective _ _)) in Hxv. subst z. exact Hz.
Qed.

End NpIntFacts.

(* ===================================================================== *)
(** * Properties of the rest of the udm2 notebook *)
(* ===================================================================== *)

Module Udm2Facts.

Import Np NpInt Exn Err Spec NpFacts DictFacts MappingFacts NormalizeFacts.
Import Plot PlotFacts NpIntFacts Udm2.
Local Open Scope Z_scope.

Lemma int_keys_distinct l :
  StronglySorted Z.lt l ->
  distinct_keys (map (fun z => Val (inject_Z z)) l).
Proof.
  unfold distinct_keys. induction 1 as [| x l Hl IH Hx]; simpl.
  - constructor.
  - constructor; [| exact IH].
    rewrite Forall_map. eapply Forall_impl; [| exact Hx].
    intros y Hxy. simpl. rewrite Qeq_bool_inject.
    apply Z.eqb_neq. lia.
Qed.

(** [get_udm_labels] has one item per distinct value, in ascending
    order. *)
Lemma get_udm_labels_items udm :
  get_udm_labels udm
  = map (fun v => (Val (inject_Z v), Udm.get_label v)) (unique udm).
Proof.
  unfold get_udm_labels. apply of_pairs_distinct.
  rewrite map_map. cbn [fst].
  apply int_keys_distinct. apply unique_ascending.
Qed.

Lemma get_int_items {V : Type} (g : Z -> V) l v :
  Dict.get (map (fun u => (Val (inject_Z u), g u)) l) (Val (inject_Z v))
  = if existsb (Z.eqb v) l then Some (g v) else None.
Proof.
  induction l as [| u l IH]; simpl; [reflexivity |].
  rewrite Qeq_bool_inject, IH, (Z.eqb_sym v u).
  destruct (Z.eqb_spec u v) as [-> | _]; reflexivity.
Qed.

Lemma existsb_eqb_In v l : existsb (Z.eqb v) l = true <-> In v l.
Proof.
  rewrite existsb_exists. split.
  - intros [x [Hx E]]. apply Z.eqb_eq in E. subst x. exact Hx.
  - intros H. exists v. split; [exact H | apply Z.eqb_refl].
Qed.

(** X5. [get_udm_labels] looked up at a value of the band gives the label
    [get_label] decodes for it, and at any other integer it has no entry;
    its keys are the distinct values of the band in ascending order. *)
Theorem get_udm_labels_lookup (udm : int_array) (v : Z) :
  (In v (List.concat udm) ->
   Dict.get (get_udm_labels udm) (Val (inject_Z v))
   = Some (Udm.get_label v)) /\
  (~ In v (List.concat udm) ->
   Dict.get (get_udm_labels udm) (Val (inject_Z v)) = None) /\
  Dict.keys (get_udm_labels udm)
  = map (fun z => Val (inject_Z z)) (unique udm) /\
  StronglySorted Z.lt (unique udm) /\
  (forall z, In z (unique udm) <-> In z (List.concat udm)).
Proof.
  rewrite get_udm_labels_items, get_int_items.
  split; [| split; [| split; [| split]]].
  - intros H. apply unique_In, existsb_eqb_In in H. rewrite H. reflexivity.
  - intros H. destruct (existsb (Z.eqb v) (unique udm)) eqn:E;
      [| reflexivity].
    exfalso. apply H. apply unique_In, existsb_eqb_In. exact E.
  - unfold Dict.keys. rewrite map_map. reflexivity.
  - apply unique_ascending.
  - intros z. apply unique_In.
Qed.

Lemma getitem_axis0_last {A : Type} (l : list A) (x : A) :
  getitem_axis0 (l ++ [x]) (-1) = inr x.
Proof.
  unfold getitem_axis0. cbv zeta. rewrite length_app. simpl List.length.
  change (-1 <? 0) with true. cbv iota.
  replace (-1 + Z.of_nat (List.length l + 1)) with (Z.of_nat (List.length l))
    by lia.
  destruct (Z.leb_spec 0 (Z.of_nat (List.length l))) as [_ | ?]; [| lia].
  destruct (Z.ltb_spec (Z.of_nat (List.length l))
                       (Z.of_nat (List.length l + 1))) as [_ | ?]; [| lia].
  simpl. rewrite Nat2Z.id, nth_error_app2, Nat.sub_diag by lia.
  reflexivity.
Qed.

Lemma Forall2_map_left {A B C : Type} (R : B -> C -> Prop) (f : A -> B) l l' :
  Forall2 R (map f l) l' -> Forall2 (fun a c => R (f a) c) l l'.
Proof.
  revert l'. induction l as [| a l IH]; intros l' H; simpl in H;
    inversion H; subst; constructor; auto.
Qed.

(** X6. [visualize_udm2_unusable] raises [IndexError] on an array with no
    band. Otherwise it raises nothing, whatever the last band holds: every
    key of the labels is a key of the mapping, and the legend has one
    patch per distinct value of the last band, in ascending order, with
    the label [get_label] decodes and the colour of the mapped position of
    the value; the title is "unusable pixels". *)
Theorem visualize_udm2_unusable_legend
        (bands : list int_array) (band : int_array) :
  visualize_udm2_unusable [] = inl IndexError /\
  exists ax mapping patches,
    visualize_udm2_unusable (bands ++ [band]) = inr ax /\
    ClassNormalize.__init__ (as_ndarray band) = inr mapping /\
    legend ax = Some patches /\
    Forall2 (fun v p =>
               label p = Udm.get_label v /\
               has_color mapping "rainbow" (Val (inject_Z v)) (color p))
            (unique band) patches /\
    title ax = Some "unusable pixels"%string /\
    axis_on ax = false.
Proof.
  split; [reflexivity |].
  unfold visualize_udm2_unusable. cbv zeta.
  rewrite getitem_axis0_last. cbn [bind Monad_either].
  change (getitem_axis0 udm2_labels (-1)) with
    (@inr error string "unusable pixels"%string).
  cbn [bind Monad_either].
  destruct (imshow_class_band_spec new_axes (as_ndarray band)
              (Some (get_udm_labels band)) "rainbow")
    as [mapping [im [Hm [_ [Hkeys Hshow]]]]].
  rewrite Hshow.
  destruct (legend_patches_labels mapping "rainbow" (get_udm_labels band))
    as [Hok _].
  assert (Hall : Forall (fun k => Dict.get mapping k <> None)
                        (Dict.keys (get_udm_labels band))).
  { apply mapping_has_own_keys. rewrite Hkeys.
    rewrite unique_numbers_as_ndarray, map_map, get_udm_labels_items.
    unfold Dict.keys. rewrite map_map. reflexivity. }
  destruct (Hok Hall) as [patches [Hp Hcells]].
  rewrite Hp. cbn [lift bind Monad_either ret].
  eexists _, mapping, patches.
  split; [reflexivity |]. split; [exact Hm |]. split; [reflexivity |].
  split; [| split; reflexivity].
  rewrite get_udm_labels_items in Hcells.
  apply Forall2_map_left in Hcells.
  eapply Forall2_impl; [| exact Hcells].
  intros v p [Hc Hl]. split; [exact Hl | exact Hc].
Qed.

(** *** Boolean masks *)

(** [np.unique] of an array of 0 and 1. *)
Lemma unique_bool m :
  (forall z, In z (List.concat m) -> z = 0 \/ z = 1) ->
  unique m
  = ((if existsb (Z.eqb 0) (List.concat m) then [0] else [])
       ++ (if existsb (Z.eqb 1) (List.concat m) then [1] else []))%list.
Proof.
  intros Hb.
  pose proof (unique_ascending m) as Hs.
  pose proof (unique_In m) as Hin.
  assert (Hb' : forall z, In z (unique m) -> z = 0 \/ z = 1)
    by (intros z Hz; apply Hb, Hin; exact Hz).
  assert (H0 : existsb (Z.eqb 0) (List.concat m) = true <-> In 0 (unique m))
    by (rewrite existsb_eqb_In, Hin; tauto).
  assert (H1 : existsb (Z.eqb 1) (List.concat m) = true <-> In 1 (unique m))
    by (rewrite existsb_eqb_In, Hin; tauto).
  clear Hin Hb.
  destruct (unique m) as [| a [| b [| c U]]].
  - destruct (existsb (Z.eqb 0) (List.concat m));
      [exfalso; apply (proj1 H0 eq_refl) |].
    destruct (existsb (Z.eqb 1) (List.concat m));
      [exfalso; apply (proj1 H1 eq_refl) | reflexivity].
  - destruct (Hb' a (or_introl eq_refl)) as [-> | ->].
    + rewrite (proj2 H0 (or_introl eq_refl)).
      destruct (existsb (Z.eqb 1) (List.concat m)); [| reflexivity].
      destruct (proj1 H1 eq_refl) as [? | []]. discriminate.
    + rewrite (proj2 H1 (or_introl eq_refl)).
      destruct (existsb (Z.eqb 0) (List.concat m)); [| reflexivity].
      destruct (proj1 H0 eq_refl) as [? | []]. discriminate.
  - inversion Hs as [| ? ? _ Hab]; subst.
    inversion Hab as [| ? ? Hlt _]; subst.
    destruct (Hb' a (or_introl eq_refl)) as [-> | ->];
      destruct (Hb' b (or_intror (or_introl eq_refl))) as [-> | ->];
      try lia.
    rewrite (proj2 H0 (or_introl eq_refl)).
    rewrite (proj2 H1 (or_intror (or_introl eq_refl))). reflexivity.
  - exfalso.
    inversion Hs as [| ? ? Hs' Hab]; subst.
    inversion Hab as [| ? ? Hlt _]; subst.
    inversion Hs' as [| ? ? _ Hbc]; subst.
    inversion Hbc as [| ? ? Hlt' _]; subst.
    destruct (Hb' a (or_introl eq_refl)) as [-> | ->];
      destruct (Hb' b (or_intror (or_introl eq_refl))) as [-> | ->];
      destruct (Hb' c (or_intror (or_intror (or_introl eq_refl))))
        as [-> | ->]; lia.
Qed.

(** The three outcomes of plotting a boolean mask with the mask labels. *)
Lemma plot_classified_band_bool (m : int_array) (cmap title : string) :
  (forall z, In z (List.concat m) -> z = 0 \/ z = 1) ->
  match existsb (Z.eqb 0) (List.concat m),
        existsb (Z.eqb 1) (List.concat m) with
  | true, true =>
      exists im,
        plot_classified_band (as_ndarray m) (Some mask_class_labels)
                             cmap title
        = inr (mkAxes (Some im)
                      (Some [mkPatch (cmap_at cmap 0%Q) "unmasked"%string;
                             mkPatch (cmap_at cmap 1%Q) "masked"%string])
                      (Some title) false)
  | true, false =>
      plot_classified_band (as_ndarray m) (Some mask_class_labels) cmap title
      = inl (KeyError (Val 1%Q))
  | false, _ =>
      plot_classified_band (as_ndarray m) (Some mask_class_labels) cmap title
      = inl (KeyError (Val 0%Q))
  end.
Proof.
  intros Hb. unfold plot_classified_band. cbv zeta.
  destruct (imshow_class_band_spec new_axes (as_ndarray m)
              (Some mask_class_labels) cmap)
    as [mapping [im [Hm [_ [_ Hshow]]]]].
  rewrite Hshow. clear Hshow.
  rewrite init_spec in Hm. injection Hm as <-.
  rewrite unique_numbers_as_ndarray, (unique_bool m Hb).
  destruct (existsb (Z.eqb 0) (List.concat m)),
    (existsb (Z.eqb 1) (List.concat m));
    try (exists im); reflexivity.
Qed.

(** X7. Plotting a boolean mask with the labels
    {0: 'unmasked', 1: 'masked'} works only when the mask holds both
    values: then the legend is the "unmasked" patch at position 0 and the
    "masked" patch at position 1. A mask with no 1 raises [KeyError] on
    the key 1, and a mask with no 0 (an empty one too) on the key 0. *)
Theorem plot_boolean_mask (m : int_array) (cmap title : string) :
  (forall z, In z (List.concat m) -> z = 0 \/ z = 1) ->
  match existsb (Z.eqb 0) (List.concat m),
        existsb (Z.eqb 1) (List.concat m) with
  | true, true =>
      exists im,
        plot_classified_band (as_ndarray m) (Some mask_class_labels)
                             cmap title
        = inr (mkAxes (Some im)
                      (Some [mkPatch (cmap_at cmap 0%Q) "unmasked"%string;
                             mkPatch (cmap_at cmap 1%Q) "masked"%string])
                      (Some title) false)
  | true, false =>
      plot_classified_band (as_ndarray m) (Some mask_class_labels) cmap title
      = inl (KeyError (Val 1%Q))
  | false, _ =>
      plot_classified_band (as_ndarray m) (Some mask_class_labels) cmap title
      = inl (KeyError (Val 0%Q))
  end.
Proof.
  exact (plot_classified_band_bool m cmap title).
Qed.

Lemma plot_boolean_mask_example :
  let m := [[0; 1]; [1; 1]] in
  (forall z, In z (List.concat m) -> z = 0 \/ z = 1) /\
  match existsb (Z.eqb 0) (List.concat m),
        existsb (Z.eqb 1) (List.concat m) with
  | true, true =>
      exists im,
        plot_classified_band (as_ndarray m) (Some mask_class_labels)
                             mask_cmap "Mask"
        = inr (mkAxes (Some im)
                      (Some [mkPatch (cmap_at mask_cmap 0%Q) "unmasked"%string;
                             mkPatch (cmap_at mask_cmap 1%Q) "masked"%string])
                      (Some "Mask"%string) false)
  | true, false =>
      plot_classified_band (as_ndarray m) (Some mask_class_labels)
                           mask_cmap "Mask"
      = inl (KeyError (Val 1%Q))
  | false, _ =>
      plot_classified_band (as_ndarray m) (Some mask_class_labels)
                           mask_cmap "Mask"
      = inl (KeyError (Val 0%Q))
  end.
Proof.
  intros m.
  assert (H : forall z, In z (List.concat m) -> z = 0 \/ z = 1)
    by (subst m; simpl; intuition lia).
  split; [exact H | exact (plot_boolean_mask m mask_cmap "Mask" H)].
Defined.

Lemma concat_eq_scalar a k :
  List.concat (eq_scalar a k)
  = map (fun z => if z =? k then 1 else 0) (List.concat a).
Proof. unfold eq_scalar. symmetry. apply concat_map. Qed.

Lemma eq_scalar_bool a k z :
  In z (List.concat (eq_scalar a k)) -> z = 0 \/ z = 1.
Proof.
  rewrite concat_eq_scalar. intros H. apply in_map_iff in H.
  destruct H as [x [<- _]]. destruct (x =? k); [right | left]; reflexivity.
Qed.

Lemma existsb_eq_scalar_0 l k :
  existsb (Z.eqb 0) (map (fun z => if z =? k then 1 else 0) l)
  = existsb (fun z => negb (z =? k)) l.
Proof.
  induction l as [| x l IH]; simpl; [reflexivity |].
  rewrite IH. destruct (x =? k); reflexivity.
Qed.

Lemma existsb_eq_scalar_1 l k :
  existsb (Z.eqb 1) (map (fun z => if z =? k then 1 else 0) l)
  = existsb (fun z => z =? k) l.
Proof.
  induction l as [| x l IH]; simpl; [reflexivity |].
  rewrite IH. destruct (x =? k); reflexivity.
Qed.

(** X8. The cell that plots [mask_unclear(udm2)] raises [IndexError]
    when [udm2] has no band. Otherwise the outcome depends on the first
    (clear) band alone: with both a zero and a non-zero pixel the plot has
    the two-patch legend; with no zero pixel (nothing to mask) it raises
    [KeyError] on the key 1; with no non-zero pixel, an empty band too,
    it raises [KeyError] on the key 0. *)
Theorem plot_mask_unclear_outcome
        (clear : int_array) (rest : list int_array) :
  plot_mask_unclear [] = inl IndexError /\
  mask_unclear (clear :: rest) = inr (eq_scalar clear 0) /\
  match existsb (fun z => negb (z =? 0)) (List.concat clear),
        existsb (fun z => z =? 0) (List.concat clear) with
  | true, true =>
      exists im,
        plot_mask_unclear (clear :: rest)
        = inr (mkAxes (Some im)
                      (Some [mkPatch (cmap_at "viridis" 0%Q) "unmasked"%string;
                             mkPatch (cmap_at "viridis" 1%Q) "masked"%string])
                      (Some "Mask All Unclear Pixels"%string) false)
  | true, false =>
      plot_mask_unclear (clear :: rest) = inl (Raised (KeyError (Val 1%Q)))
  | false, _ =>
      plot_mask_unclear (clear :: rest) = inl (Raised (KeyError (Val 0%Q)))
  end.
Proof.
  split; [reflexivity |]. split; [reflexivity |].
  unfold plot_mask_unclear.
  change (mask_unclear (clear :: rest)) with
    (@inr error int_array (eq_scalar clear 0)).
  cbn [bind Monad_either].
  pose proof (plot_classified_band_bool (eq_scalar clear 0) mask_cmap
                "Mask All Unclear Pixels" (eq_scalar_bool clear 0)) as H.
  rewrite concat_eq_scalar, existsb_eq_scalar_0, existsb_eq_scalar_1 in H.
  destruct (existsb (fun z => negb (z =? 0)) (List.concat clear)),
    (existsb (fun z => z =? 0) (List.concat clear)).
  - destruct H as [im H]. exists im. rewrite H. reflexivity.
  - rewrite H. reflexivity.
  - rewrite H. reflexivity.
  - rewrite H. reflexivity.
Qed.

Lemma getitem_axis0_nonneg {A : Type} (l : list A) (i : Z) :
  0 <= i ->
  getitem_axis0 l i
  = match nth_error l (Z.to_nat i) with
    | Some x => inr x
    | None => inl IndexError
    end.
Proof.
  intros Hi. unfold getitem_axis0. cbv zeta.
  destruct (Z.ltb_spec i 0) as [? | _]; [lia |].
  destruct (Z.leb_spec 0 i) as [_ | ?]; [| lia].
  destruct (Z.ltb_spec i (Z.of_nat (List.length l))) as [Hlt | Hge];
    simpl; [reflexivity |].
  destruct (nth_error l (Z.to_nat i)) eqn:E; [| reflexivity].
  exfalso. assert (Hn : nth_error l (Z.to_nat i) <> None) by congruence.
  apply nth_error_Some in Hn. lia.
Qed.

Lemma at2_map {A B : Type} (f : A -> B) a i j :
  at2 (map (map f) a) i j = option_map f (at2 a i j).
Proof.
  unfold at2. rewrite nth_error_map.
  destruct (nth_error a i) as [row |]; simpl; [| reflexivity].
  apply nth_error_map.
Qed.

Lemma nth_error_map2 {A B C : Type} (f : A -> B -> C) l1 :
  forall l2 i a b,
    nth_error l1 i = Some a -> nth_error l2 i = Some b ->
    nth_error (map2 f l1 l2) i = Some (f a b).
Proof.
  induction l1 as [| a1 l1 IH]; intros [| b1 l2] [| i] a b Ha Hb;
    simpl in *; try discriminate.
  - congruence.
  - apply IH; assumption.
Qed.

Lemma at2_map2 {A B C : Type} (f : A -> B -> C) a b i j x y :
  at2 a i j = Some x -> at2 b i j = Some y ->
  at2 (map2 (map2 f) a b) i j = Some (f x y).
Proof.
  unfold at2. intros Ha Hb.
  destruct (nth_error a i) as [ra |] eqn:Ea; [| discriminate].
  destruct (nth_error b i) as [rb |] eqn:Eb; [| discriminate].
  rewrite (nth_error_map2 _ _ _ _ _ _ Ea Eb).
  apply nth_error_map2; assumption.
Qed.

Lemma In_concat_map2 {A B C : Type} (f : A -> B -> C) (a : list (list A))
      (b : list (list B)) z :
  In z (List.concat (map2 (map2 f) a b)) -> exists x y, z = f x y.
Proof.
  revert b. induction a as [| ra a IH]; intros [| rb b]; simpl;
    try contradiction.
  intros H. apply in_app_or in H. destruct H as [H | H]; [| eapply IH; exact H].
  clear IH. revert rb H.
  induction ra as [| x ra IHr]; intros [| y rb]; simpl; try contradiction.
  intros [<- | H]; [exists x, y; reflexivity | eapply IHr; exact H].
Qed.

(** X9. [mask_cloud_shadow] raises [IndexError] on an array of fewer than
    6 bands. Otherwise it returns a boolean array whose pixel is 1 exactly
    where the shadow band (index 2) or the cloud band (index 5) holds 1;
    the other bands are not read. *)
Theorem mask_cloud_shadow_pixels (udm2 : list int_array) :
  ((List.length udm2 < 6)%nat -> mask_cloud_shadow udm2 = inl IndexError) /\
  (forall shadow cloud,
     nth_error udm2 2 = Some shadow ->
     nth_error udm2 5 = Some cloud ->
     exists m,
       mask_cloud_shadow udm2 = inr m /\
       (forall z, In z (List.concat m) -> z = 0 \/ z = 1) /\
       (forall i j s c,
          at2 shadow i j = Some s ->
          at2 cloud i j = Some c ->
          at2 m i j = Some (if (s =? 1) || (c =? 1) then 1 else 0))).
Proof.
  unfold mask_cloud_shadow. rewrite !getitem_axis0_nonneg by lia.
  change (Z.to_nat 2) with 2%nat. change (Z.to_nat 5) with 5%nat.
  split.
  - intros Hlen.
    assert (H5 : nth_error udm2 5 = None) by (apply nth_error_None; lia).
    rewrite H5. destruct (nth_error udm2 2); reflexivity.
  - intros shadow cloud Hs Hc. rewrite Hs, Hc. cbn [bind Monad_either ret].
    eexists. split; [reflexivity |]. split.
    + intros z Hz. apply In_concat_map2 in Hz. destruct Hz as [x [y ->]].
      destruct (Py.truthy x || Py.truthy y); [right | left]; reflexivity.
    + intros i j s c His Hic. unfold logical_or.
      rewrite (at2_map2 _ _ _ i j
                 (if s =? 1 then 1 else 0) (if c =? 1 then 1 else 0))
        by (unfold eq_scalar; rewrite at2_map, ?His, ?Hic; reflexivity).
      destruct (s =? 1), (c =? 1); reflexivity.
Qed.

End Udm2Facts.

(* ===================================================================== *)
(** * Properties of [percent_clear] *)
(* ===================================================================== *)

Module ClearFacts.

Import Np NpInt Err Float Udm2.
Local Open Scope Q_scope.

Lemma filter_zero_nonzero (l : list Z) :
  (List.length (filter (fun z => negb (z =? 0)%Z) l)
   + List.length (filter (Z.eqb 0) l))%nat
  = List.length l.
Proof.
  induction l as [| z l IH]; [reflexivity |].
  destruct z; simpl; lia.
Qed.

Lemma filter_zero_none (l : list Z) :
  (forall z, In z l -> z <> 0%Z) -> filter (Z.eqb 0) l = [].
Proof.
  induction l as [| z l IH]; intros H; [reflexivity |].
  cbn [filter]. destruct (Z.eqb_spec 0 z) as [E | _].
  - exfalso. apply (H z); [left; reflexivity | congruence].
  - apply IH. intros z' Hz'. apply H. right. exact Hz'.
Qed.

(** X10. The number the notebook prints as the share of clear pixels is
    100 times the share of pixels of the first band whose value is 0,
    between 0 and 100, and 0 when every pixel is non-zero. An array with
    no band raises [IndexError]. On a band with no pixel the outcome
    depends on what [np.count_nonzero] returns: [ZeroDivisionError] with
    a Python integer, nan with a numpy integer. *)
Theorem percent_clear_share
        (python_int : bool) (band : int_array) (rest : list int_array) :
  percent_clear python_int [] = inl IndexError /\
  (List.concat band = [] ->
   percent_clear python_int (band :: rest)
   = if python_int then inl ZeroDivisionError else inr NaN) /\
  (List.concat band <> [] ->
   exists p,
     percent_clear python_int (band :: rest) = inr (Fin p) /\
     p == 100 * inject_Z (Z.of_nat (List.length
                                      (filter (Z.eqb 0) (List.concat band))))
          / inject_Z (Z.of_nat (List.length (List.concat band))) /\
     0 <= p <= 100 /\
     ((forall z, In z (List.concat band) -> z <> 0%Z) -> p == 0)).
Proof.
  split; [reflexivity |].
  unfold percent_clear.
  change (getitem_axis0 (band :: rest) 0) with (@inr error int_array band).
  cbn [bind Monad_either]. cbv zeta. unfold size, count_nonzero.
  pose proof (filter_zero_nonzero (List.concat band)) as Hsum.
  set (n := List.length (List.concat band)) in *.
  set (c := List.length (filter (fun z => negb (z =? 0)%Z)
                                (List.concat band))) in *.
  set (k := List.length (filter (Z.eqb 0) (List.concat band))) in *.
  split.
  - intros E. unfold n. rewrite E. destruct python_int; reflexivity.
  - intros Hne.
    assert (Hn : (0 < n)%nat).
    { unfold n. destruct (List.concat band); [congruence | simpl; lia]. }
    destruct (Z.eqb_spec (Z.of_nat n) 0) as [? | _]; [lia |].
    eexists. split; [reflexivity |].
    assert (Hk : (100 * (Z.of_nat n - Z.of_nat c) = 100 * Z.of_nat k)%Z)
      by lia.
    rewrite Hk, inject_Z_mult.
    assert (Hd : 0 < inject_Z (Z.of_nat n)).
    { change 0 with (inject_Z 0). rewrite <- Zlt_Qlt. lia. }
    split; [reflexivity |]. split; [split |].
    + apply Qle_shift_div_l; [exact Hd |]. rewrite Qmult_0_l.
      rewrite <- inject_Z_mult. change 0 with (inject_Z 0).
      rewrite <- Zle_Qle. lia.
    + apply Qle_shift_div_r; [exact Hd |].
      change 100 with (inject_Z 100). rewrite <- !inject_Z_mult.
      rewrite <- Zle_Qle. lia.
    + intros Hnz. unfold k. rewrite (filter_zero_none _ Hnz). reflexivity.
Qed.

End ClearFacts.

(* ===================================================================== *)
(** * Properties of the NDWI computation *)
(* ===================================================================== *)

Module NdwiFacts.

Import Np NpInt Float Ndwi NpIntFacts Udm2Facts.
Local Open Scope Q_scope.

Lemma Qle_bool_div_pos a b : 0 < b -> Qle_bool 0 (a / b) = Qle_bool 0 a.
Proof.
  intros Hb. apply Bool.eq_iff_eq_true. rewrite !Qle_bool_iff. split.
  - intros H. rewrite <- (Qmult_div_r a b) by lra.
    apply Qmult_le_0_compat; [lra | exact H].
  - intros H. apply Qle_shift_div_l; [exact Hb | lra].
Qed.

Lemma div_ge_0 a b :
  0 <= b ->
  ge (div a b) 0 = Qle_bool 0 a && negb (Qeq_bool a 0 && Qeq_bool b 0).
Proof.
  intros Hb. unfold div.
  destruct (Qeq_bool b 0) eqn:Eb.
  - rewrite andb_true_r.
    destruct (Qcompare a 0) eqn:C; simpl.
    + apply Qeq_alt in C.
      rewrite (proj2 (Qeq_bool_iff a 0) C), andb_false_r. reflexivity.
    + apply Qlt_alt in C. symmetry. apply andb_false_iff. left.
      destruct (Qle_bool 0 a) eqn:E; [| reflexivity].
      apply Qle_bool_iff in E. lra.
    + apply Qgt_alt in C. symmetry. apply andb_true_iff. split.
      * apply Qle_bool_iff. lra.
      * destruct (Qeq_bool a 0) eqn:E; [| reflexivity].
        apply Qeq_bool_iff in E. lra.
  - rewrite andb_false_r, andb_true_r. simpl.
    apply Qle_bool_div_pos.
    destruct (Qle_lt_or_eq _ _ Hb) as [? | E]; [assumption |].
    exfalso. symmetry in E. apply Qeq_bool_iff in E. congruence.
Qed.

Lemma div_lt_0 a b : 0 <= b -> lt (div a b) 0 = negb (Qle_bool 0 a).
Proof.
  intros Hb. unfold div.
  destruct (Qeq_bool b 0) eqn:Eb.
  - destruct (Qcompare a 0) eqn:C; simpl.
    + apply Qeq_alt in C. symmetry. apply negb_false_iff.
      apply Qle_bool_iff. lra.
    + apply Qlt_alt in C. symmetry. apply negb_true_iff.
      destruct (Qle_bool 0 a) eqn:E; [| reflexivity].
      apply Qle_bool_iff in E. lra.
    + apply Qgt_alt in C. symmetry. apply negb_false_iff.
      apply Qle_bool_iff. lra.
  - simpl. f_equal. apply Qle_bool_div_pos.
    destruct (Qle_lt_or_eq _ _ Hb) as [? | E]; [assumption |].
    exfalso. symmetry in E. apply Qeq_bool_iff in E. congruence.
Qed.

(** One pixel of [ndwi]. *)
Lemma ndwi_at w green nir i j g n :
  at2 green i j = Some g -> at2 nir i j = Some n ->
  at2 (ndwi w green nir) i j
  = Some (div (inject_Z g - inject_Z n)
              (inject_Z ((g + n) mod 2 ^ w))).
Proof.
  intros Hg Hn. unfold ndwi, astype_float, add_bands.
  apply at2_map2.
  - apply at2_map2; rewrite at2_map, ?Hg, ?Hn; reflexivity.
  - rewrite at2_map.
    rewrite (at2_map2 _ _ _ i j g n Hg Hn). reflexivity.
Qed.

Lemma inject_Z_sub g n : inject_Z g - inject_Z n = inject_Z (g - n).
Proof.
  unfold Qminus. rewrite <- inject_Z_opp, <- inject_Z_plus. reflexivity.
Qed.

Lemma Qle_bool_0_minus g n :
  Qle_bool 0 (inject_Z g - inject_Z n) = (n <=? g)%Z.
Proof.
  apply Bool.eq_iff_eq_true. rewrite Qle_bool_iff, Z.leb_le.
  rewrite inject_Z_sub. change 0 with (inject_Z 0).
  rewrite <- Zle_Qle. lia.
Qed.

Lemma Qeq_bool_minus_0 g n :
  Qeq_bool (inject_Z g - inject_Z n) 0 = (g =? n)%Z.
Proof.
  apply Bool.eq_iff_eq_true. rewrite Qeq_bool_iff, Z.eqb_eq.
  rewrite inject_Z_sub. change 0 with (inject_Z 0).
  rewrite inject_Z_injective. lia.
Qed.

(** X12. For bands of an unsigned integer type of [w] bits, [w] at most
    53 so that a float holds every value exactly: whatever the sum
    [green + nir] wraps to, a pixel is in [land_mask] exactly when
    [green < nir], and in [water_mask] exactly when [green > nir], or
    [green = nir] with a non-zero wrapped sum: no pixel is in both masks,
    and the pixels in neither are those whose NDWI is 0/0. *)
Theorem ndwi_masks_compare (w : Z) (green nir : int_array)
        (i j : nat) (g n : Z) :
  (0 <= w <= 53)%Z ->
  at2 green i j = Some g ->
  at2 nir i j = Some n ->
  (0 <= g < 2 ^ w)%Z ->
  (0 <= n < 2 ^ w)%Z ->
  at2 (land_mask (ndwi w green nir)) i j
  = Some (if (g <? n)%Z then Fin 1 else NaN) /\
  at2 (water_mask (ndwi w green nir)) i j
  = Some (if ((n <? g) || ((g =? n) && negb ((g + n) mod 2 ^ w =? 0)))%Z
          then Fin 1 else NaN).
Proof.
  intros Hw Hg Hn _ _.
  pose proof (ndwi_at w green nir i j g n Hg Hn) as Hat.
  assert (Hd : 0 <= inject_Z ((g + n) mod 2 ^ w)).
  { change 0 with (inject_Z 0). rewrite <- Zle_Qle.
    apply Z.mod_pos_bound. apply Z.pow_pos_nonneg; lia. }
  unfold land_mask, water_mask. rewrite !at2_map, Hat. cbn [option_map].
  rewrite (div_lt_0 _ _ Hd), (div_ge_0 _ _ Hd).
  rewrite Qle_bool_0_minus, Qeq_bool_minus_0.
  change 0 with (inject_Z 0). rewrite Qeq_bool_inject.
  split; f_equal.
  - destruct (Z.leb_spec n g), (Z.ltb_spec g n); try lia; reflexivity.
  - destruct (Z.leb_spec n g), (Z.ltb_spec n g), (Z.eqb_spec g n);
      try lia; simpl; try reflexivity.
Qed.

Lemma ndwi_masks_compare_example :
  let green := [[65535%Z; 7%Z]] in
  let nir := [[1%Z; 9%Z]] in
  ((0 <= 16 <= 53)%Z /\
   at2 green 0 0 = Some 65535%Z /\ at2 nir 0 0 = Some 1%Z /\
   (0 <= 65535 < 2 ^ 16)%Z /\ (0 <= 1 < 2 ^ 16)%Z) /\
  at2 (land_mask (ndwi 16 green nir)) 0 0
  = Some (if (65535 <? 1)%Z then Fin 1 else NaN) /\
  at2 (water_mask (ndwi 16 green nir)) 0 0
  = Some (if ((1 <? 65535)
              || ((65535 =? 1) && negb ((65535 + 1) mod 2 ^ 16 =? 0)))%Z
          then Fin 1 else NaN).
Proof.
  intros green nir.
  split; [repeat split; try reflexivity; lia |].
  apply (ndwi_masks_compare 16 green nir 0 0 65535 1);
    [lia | reflexivity | reflexivity | lia | lia].
Defined.

(** X13. For non-negative band values whose sum is positive and does not
    overflow the integer type, the NDWI of the pixel is the finite number
    [(green - nir) / (green + nir)], between -1 and 1; when the sum
    overflows, the divisor is the sum less [2 ^ w]. *)
Theorem ndwi_value (w : Z) (green nir : int_array) (i j : nat) (g n : Z) :
  at2 green i j = Some g ->
  at2 nir i j = Some n ->
  (0 <= g < 2 ^ w)%Z ->
  (0 <= n < 2 ^ w)%Z ->
  ((0 < g + n < 2 ^ w)%Z ->
   exists q,
     at2 (ndwi w green nir) i j = Some (Fin q) /\
     q == (inject_Z g - inject_Z n) / (inject_Z g + inject_Z n) /\
     - (1) <= q <= 1) /\
  ((2 ^ w <= g + n)%Z ->
   at2 (ndwi w green nir) i j
   = Some (div (inject_Z g - inject_Z n) (inject_Z (g + n - 2 ^ w)))).
Proof.
  intros Hg Hn Hgr Hnr. rewrite (ndwi_at w green nir i j g n Hg Hn). split.
  - intros Hs. rewrite Z.mod_small by lia.
    assert (Hpos : 0 < inject_Z (g + n)).
    { change 0 with (inject_Z 0). rewrite <- Zlt_Qlt. lia. }
    unfold div.
    assert (E : Qeq_bool (inject_Z (g + n)) 0 = false).
    { destruct (Qeq_bool (inject_Z (g + n)) 0) eqn:E; [| reflexivity].
      apply Qeq_bool_iff in E. lra. }
    rewrite E. eexists. split; [reflexivity |].
    split; [rewrite inject_Z_plus; reflexivity |].
    assert (Hgq : 0 <= inject_Z g)
      by (change 0 with (inject_Z 0); rewrite <- Zle_Qle; lia).
    assert (Hnq : 0 <= inject_Z n)
      by (change 0 with (inject_Z 0); rewrite <- Zle_Qle; lia).
    rewrite inject_Z_plus in *. split.
    + apply Qle_shift_div_l; [exact Hpos | lra].
    + apply Qle_shift_div_r; [exact Hpos | lra].
  - intros Ho. do 2 f_equal. f_equal.
    symmetry. apply Z.mod_unique with (q := 1%Z); lia.
Qed.

Lemma ndwi_value_example :
  let green := [[65535%Z; 7%Z]] in
  let nir := [[1%Z; 9%Z]] in
  (at2 green 0 1 = Some 7%Z /\ at2 nir 0 1 = Some 9%Z /\
   (0 <= 7 < 2 ^ 16)%Z /\ (0 <= 9 < 2 ^ 16)%Z) /\
  ((0 < 7 + 9 < 2 ^ 16)%Z ->
   exists q,
     at2 (ndwi 16 green nir) 0 1 = Some (Fin q) /\
     q == (inject_Z 7 - inject_Z 9) / (inject_Z 7 + inject_Z 9) /\
     - (1) <= q <= 1) /\
  ((2 ^ 16 <= 7 + 9)%Z ->
   at2 (ndwi 16 green nir) 0 1
   = Some (div (inject_Z 7 - inject_Z 9) (inject_Z (7 + 9 - 2 ^ 16)))).
Proof.
  intros green nir.
  split; [split; [reflexivity | split; [reflexivity | split; lia]] |].
  apply (ndwi_value 16 green nir 0 1 7 9);
    [reflexivity | reflexivity | lia | lia].
Defined.

End NdwiFacts.
